(** * The expiring cache of SqlWrapper.py

    A shallow embedding of the classes [Cache] and [DatabaseCache] of
    [SqlWrapper.py], and the properties of the time-to-live cache that
    follow from the code.

    Conventions of the embedding:
    - a [System.DateTime] is its number of ticks, a [System.TimeSpan] its
      length in ticks, both in [Z] (a [TimeSpan] may be negative);
    - the dict [self._cache] is a [gmap]; the list [self.__history] is a
      [list] whose head is index 0 and whose last element is [history[-1]];
    - a method is a function in the monad [M]: it takes the object, returns
      an outcome and the object as the call left it.  A raised exception
      keeps the mutations made before it, as in Python;
    - [DateTime.UtcNow] is an argument [now] of every method that reads the
      clock: one call reads one instant.

    The second part embeds what uses the cache: [add_top_1], with the
    regular expression it searches for, and the static methods of
    [SqlWrapper].  There
    - an argument of a method is a [PyVal], one constructor for each kind
      of object the code tells apart;
    - the pattern of [add_top_1] is a [regex], matched by backtracking in
      the order of the [re] module, on strings of 8-bit characters;
    - the runtime ([JsonHelper], [str.format], the names of the methods) is
      a class [Runtime]; the clock, the trace switch and the answers of the
      database are a [Host], one for each call; the calls of [Log], [Trace]
      and [SqlHelper] are events in the state.  The runtime and the
      database answer every call. *)

From stdpp Require Import gmap strings list fin_maps sorting.
From Stdlib Require Import ZArith Lia Sorted Ascii.

Local Open Scope Z_scope.

(** ** Values of the host runtime *)

(** What a caller may hand to the constructor: Python is dynamically typed,
    so the argument is any object; [PyTimeSpan] is [System.TimeSpan]. *)
Inductive PyObject :=
  | PyNone
  | PyBool (b : bool)
  | PyInt (n : Z)
  | PyStr (s : string)
  | PyTimeSpan (ticks : Z).

(** [isinstance(x, System.TimeSpan)] *)
Definition isinstance_TimeSpan (x : PyObject) : bool :=
  match x with
  | PyTimeSpan _ => true
  | _ => false
  end.

Section Model.
Context `{Countable K} {V : Type}.

(** ** Data *)

(** The stored envelope [{"value": value, "date": now}].  A date is an
    [option]: [None] is Python's [None], the falsy date that [has_expired]
    tests for. *)
Record item := Item { item_value : V; item_date : option Z }.

(** A history record [{"key": key, "date": now}]. *)
Record entry := Entry { entry_key : K; entry_date : option Z }.

(** The fields of a [DatabaseCache] instance: [_cache] comes from the base
    class [Cache], the other two from [DatabaseCache.__init__]. *)
Record Self := MkSelf {
  _cache : gmap K item;
  __time_to_live : Z;
  __history : list entry
}.

Definition set_cache (f : gmap K item → gmap K item) (self : Self) : Self :=
  MkSelf (f (_cache self)) (__time_to_live self) (__history self).

Definition set_history (f : list entry → list entry) (self : Self) : Self :=
  MkSelf (_cache self) (__time_to_live self) (f (__history self)).

(** ** Exceptions and the method monad *)

Inductive exn :=
  | KeyError (key : K)           (* KeyError(key) *)
  | KeyError_msg (msg : string)  (* KeyError('popitem(): dictionary is empty') *)
  | IndexError (msg : string)
  | ValueError (msg : string)
  | NotImplementedError.

Definition is_KeyError (e : exn) : bool :=
  match e with
  | KeyError _ | KeyError_msg _ => true
  | _ => false
  end.

(** How a call ends.  [OutOfFuel] is the answer of a loop that was given
    too few iterations; no Python run ends this way. *)
Inductive outcome (A : Type) :=
  | Return (a : A)
  | Raise (e : exn)
  | OutOfFuel.
Arguments Return {A} a.
Arguments Raise {A} e.
Arguments OutOfFuel {A}.

Definition M (A : Type) : Type := Self → outcome A * Self.

Definition ret {A} (a : A) : M A := λ self, (Return a, self).

Definition raise {A} (e : exn) : M A := λ self, (Raise e, self).

Definition bind {A B} (m : M A) (k : A → M B) : M B := λ self,
  match m self with
  | (Return a, self') => k a self'
  | (Raise e, self') => (Raise e, self')
  | (OutOfFuel, self') => (OutOfFuel, self')
  end.

(** [try: body / except KeyError: handler] *)
Definition try_except_KeyError {A} (body handler : M A) : M A := λ self,
  match body self with
  | (Raise e, self') =>
      if is_KeyError e then handler self' else (Raise e, self')
  | r => r
  end.

Definition out_of_fuel {A} : M A := λ self, (OutOfFuel, self).

(** Reading a field of [self]. *)
Definition get_self : M Self := λ self, (Return self, self).

#[global] Instance M_ret : MRet M := @ret.
#[global] Instance M_bind : MBind M := λ A B k m, bind m k.

(** ** The operations of dict and list that the classes use *)

(** [self._cache[key]] *)
Definition dict_getitem (key : K) : M item := λ self,
  match _cache self !! key with
  | Some it => (Return it, self)
  | None => (Raise (KeyError key), self)
  end.

(** [self._cache[key] = value] *)
Definition dict_setitem (key : K) (it : item) : M unit := λ self,
  (Return tt, set_cache (insert key it) self).

(** [self._cache.pop(key)]: no default is given, an absent key raises. *)
Definition dict_pop (key : K) : M item := λ self,
  match _cache self !! key with
  | Some it => (Return it, set_cache (delete key) self)
  | None => (Raise (KeyError key), self)
  end.

(** [self._cache.popitem()]: removes some pair; raises on the empty dict. *)
Definition dict_popitem : M (K * item) := λ self,
  match map_to_list (_cache self) with
  | (k, it) :: _ => (Return (k, it), set_cache (delete k) self)
  | [] => (Raise (KeyError_msg "popitem(): dictionary is empty"), self)
  end.

(** [key not in self._cache] *)
Definition dict_not_in (key : K) : M bool := λ self,
  (Return (bool_decide (_cache self !! key = None)), self).

(** [self.__history.pop()] *)
Definition list_pop : M entry := λ self,
  match last (__history self) with
  | Some e => (Return e, set_history (@removelast entry) self)
  | None => (Raise (IndexError "pop from empty list"), self)
  end.

(** [self.__history.insert(0, e)] *)
Definition list_insert_0 (e : entry) : M unit := λ self,
  (Return tt, set_history (cons e) self).

(** ** class Cache *)

(** [Cache._is_valid]: abstract. *)
Definition Cache_is_valid (key : K) : M bool := raise NotImplementedError.

(** [Cache.__getitem__]; [_is_valid] is the method of the instance's class. *)
Definition Cache__getitem__ (_is_valid : K → M bool) (key : K) : M item :=
  valid ← _is_valid key;
  if negb valid then raise (KeyError key) else dict_getitem key.

(** [Cache.__setitem__] *)
Definition Cache__setitem__ (key : K) (value : item) : M unit :=
  dict_setitem key value.

(** [Cache.__delitem__] *)
Definition __delitem__ (key : K) : M unit :=
  dict_pop key ;; mret tt.

(** [Cache.__len__] *)
Definition __len__ (self : Self) : nat := size (_cache self).

(** [Cache.clear]: [while True: self._cache.popitem()] under
    [try/except KeyError: pass]; [fuel] bounds the iterations. *)
Fixpoint clear_loop (fuel : nat) : M unit :=
  match fuel with
  | O => out_of_fuel
  | S fuel' => dict_popitem ;; clear_loop fuel'
  end.

Definition clear_fuel (fuel : nat) : M unit :=
  try_except_KeyError (clear_loop fuel) (mret tt).

Definition clear : M unit := λ self,
  clear_fuel (S (size (_cache self))) self.

(** ** class DatabaseCache(Cache) *)

(** [DatabaseCache.__init__]: [Cache.__init__] gives the empty dict, then
    comes the type check; the caller gets an object only if it passes. *)
Definition __init__ (time_to_live : PyObject) : exn + Self :=
  match time_to_live with
  | PyTimeSpan ticks => inr (MkSelf ∅ ticks [])
  | _ => inl (ValueError "Expected System.TimeSpan")
  end.

(** [DatabaseCache.has_expired].  [if not date_time] holds of [None] only:
    a [DateTime] is never falsy. *)
Definition has_expired (now : Z) (date_time : option Z) (self : Self) : bool :=
  match date_time with
  | None => true
  | Some d => bool_decide (now - d > __time_to_live self)
  end.

(** [DatabaseCache._is_valid] *)
Definition _is_valid (now : Z) (key : K) : M bool :=
  it ← dict_getitem key;
  self ← get_self;
  mret (negb (has_expired now (item_date it) self)).

(** [DatabaseCache.__getitem__] *)
Definition __getitem__ (now : Z) (key : K) : M V :=
  it ← Cache__getitem__ (_is_valid now) key;
  mret (item_value it).

(** The body of the [while] loop of [DatabaseCache._remove_invalid].  It
    answers [false] when it leaves the loop by [break], and [true] when it
    runs to its end and the loop condition is tested again. *)
Definition sweep_body (now : Z) : M bool :=
  self ← get_self;
  match last (__history self) with
  | None => raise (IndexError "list index out of range")
  | Some oldest =>                              (* self.__history[-1] *)
      if negb (has_expired now (entry_date oldest) self) then mret false
      else dict_pop (entry_key oldest) ;; list_pop ;; mret true
  end.

(** [while len(self.__history) > 0: body]; [fuel] is the number of times
    the body may be entered. *)
Fixpoint sweep_loop (fuel : nat) (now : Z) : M unit :=
  self ← get_self;
  if bool_decide (0 < length (__history self))%nat then
    match fuel with
    | O => out_of_fuel
    | S fuel' =>
        again ← sweep_body now;
        if (again : bool) then sweep_loop fuel' now else mret tt
    end
  else mret tt.

(** [DatabaseCache._remove_invalid].  Each pass through the body that does
    not leave the loop pops one history entry, so [len(self.__history)]
    passes are enough ([sweep_loop_fuel] below). *)
Definition _remove_invalid (now : Z) : M unit :=
  self ← get_self;
  match __history self with
  | [] => mret tt                               (* if not self.__history: return *)
  | _ => sweep_loop (length (__history self)) now
  end.

(** [DatabaseCache.__setitem__] *)
Definition __setitem__ (now : Z) (key : K) (value : V) : M unit :=
  _remove_invalid now ;;
  is_new ← dict_not_in key;
  let it := Item value (Some now) in
  Cache__setitem__ key it ;;
  if negb is_new then mret tt
  else list_insert_0 (Entry key (Some now)).

(** ** Calls

    What a client can do to a cache, and the object each call leaves
    behind, whether the call returned or raised. *)
Inductive call :=
  | Call_setitem (now : Z) (key : K) (value : V)
  | Call_getitem (now : Z) (key : K)
  | Call_delitem (key : K)
  | Call_clear
  | Call_remove_invalid (now : Z).

Definition after (c : call) (self : Self) : Self :=
  match c with
  | Call_setitem now key value => snd (__setitem__ now key value self)
  | Call_getitem now key => snd (__getitem__ now key self)
  | Call_delitem key => snd (__delitem__ key self)
  | Call_clear => snd (clear self)
  | Call_remove_invalid now => snd (_remove_invalid now self)
  end.

Definition after_all (cs : list call) (self : Self) : Self :=
  foldl (λ s c, after c s) self cs.

(** [sets cs]: the writes [cache[key] = value] of [cs], each at its own
    instant, one after the other. *)
Fixpoint sets (cs : list (Z * K * V)) : M unit :=
  match cs with
  | [] => mret tt
  | (now, key, value) :: cs' => __setitem__ now key value ;; sets cs'
  end.

(** ** Vocabulary of the properties *)

(** The history entries that a sweep leaves when [stale] says which
    entries have expired: the history without its longest all-stale tail. *)
Fixpoint survivors (stale : entry → bool) (h : list entry) : list entry :=
  match h with
  | [] => []
  | e :: h' => if forallb stale h then [] else e :: survivors stale h'
  end.

(** The entries the sweep pops: that longest all-stale tail. *)
Definition evicted (stale : entry → bool) (h : list entry) : list entry :=
  drop (length (survivors stale h)) h.

(** The dict without the keys of the entries [es]. *)
Definition evict (m : gmap K item) (es : list entry) : gmap K item :=
  foldr (λ e, delete (entry_key e)) m es.

(** The object a sweep at [now] leaves when every pop finds its key. *)
Definition swept (now : Z) (self : Self) : Self :=
  let stale e := has_expired now (entry_date e) self in
  MkSelf (evict (_cache self) (evicted stale (__history self)))
         (__time_to_live self)
         (survivors stale (__history self)).

(** The history agrees with the dict: no key is recorded twice and every
    recorded key is stored.  Writes and reads keep it ([setitem_hist_ok]);
    [__delitem__] and [clear] do not touch the history and can break it. *)
Definition hist_ok (self : Self) : Prop :=
  NoDup (entry_key <$> __history self) ∧
  ∀ e, e ∈ __history self → is_Some (_cache self !! entry_key e).

(** The history records exactly the stored keys, once each. *)
Definition hist_exact (self : Self) : Prop :=
  NoDup (entry_key <$> __history self) ∧
  dom (_cache self) = list_to_set (entry_key <$> __history self).

(** A write as a triple: the instant, the key, the value. *)
Definition time_of (c : Z * K * V) : Z := c.1.1.
Definition key_of (c : Z * K * V) : K := c.1.2.
Definition entry_of (c : Z * K * V) : entry := Entry (key_of c) (Some (time_of c)).
Definition item_of (c : Z * K * V) : K * item :=
  (key_of c, Item c.2 (Some (time_of c))).

(** The cache that holds the writes [cs], first write first, and nothing
    else: each key with its value and instant, the history newest first. *)
Definition written (ttl : Z) (cs : list (Z * K * V)) : Self :=
  MkSelf (list_to_map (item_of <$> cs)) ttl (reverse (entry_of <$> cs)).

(** The writes of [cs] that are no older than [ttl] at [now]. *)
Definition unexpired (ttl now : Z) (cs : list (Z * K * V)) : list (Z * K * V) :=
  filter (λ c, now - time_of c ≤ ttl) cs.

End Model.

Arguments item V : clear implicits.
Arguments entry K : clear implicits.
Arguments exn K : clear implicits.
Arguments outcome K A : clear implicits.
Arguments Self K {_ _} V.
Arguments M K {_ _} V A.
Arguments call K V : clear implicits.
Arguments Return {K A} a.
Arguments Raise {K A} e.
Arguments OutOfFuel {K A}.

(** ** The caches of [SqlWrapper]

    [first_cache] and [list_cache] are built with
    [System.TimeSpan(hours=0, minutes=2, seconds=0)].  Their keys are pairs
    of a query and its serialized parameters; strings stand for them, and
    for the results, in the instances below. *)

(** Ticks of 100 ns in a number of seconds. *)
Definition seconds (n : Z) : Z := n * 10000000.

(** [System.TimeSpan(hours, minutes, seconds)] *)
Definition TimeSpan (hours minutes secs : Z) : PyObject :=
  PyTimeSpan (seconds ((hours * 60 + minutes) * 60 + secs)).

Definition first_cache : exn string + Self string string :=
  __init__ (TimeSpan 0 2 0).

Definition two_minutes : Z := seconds 120.

(** [first_cache] as the constructor leaves it. *)
Definition empty_cache : Self string string := MkSelf ∅ two_minutes [].

(** [first_cache] after [first_cache["q1"] = "rowA"] at instant 0. *)
Definition q1_cache : Self string string :=
  MkSelf {["q1" := Item "rowA" (Some 0)]} two_minutes [Entry "q1" (Some 0)].

(** [q1_cache] after [del first_cache["q1"]]: the history keeps the entry. *)
Definition q1_deleted : Self string string :=
  MkSelf ∅ two_minutes [Entry "q1" (Some 0)].

(** Three writes half a minute apart. *)
Definition three_writes : list (Z * string * string) :=
  [(seconds 0, "q1", "rowA"); (seconds 30, "q2", "rowB"); (seconds 60, "q3", "rowC")].

(** ** Vocabulary of the properties of runs of calls *)

Section Traces.
Context `{Countable K} {V : Type}.

(** A call that writes or reads; [del] and [clear()] are the others. *)
Definition is_write_or_read (c : call K V) : bool :=
  match c with
  | Call_setitem _ _ _ | Call_getitem _ _ => true
  | _ => false
  end.

(** The instant and value of the last write of [key] among [cs]. *)
Definition last_write (key : K) (cs : list (call K V)) : option (Z * V) :=
  foldl (λ acc c,
           match c with
           | Call_setitem now k v => if decide (k = key) then Some (now, v) else acc
           | _ => acc
           end) None cs.

(** [d1] and [d2] are instants, [d1] no later than [d2]. *)
Definition date_le (d1 d2 : option Z) : Prop :=
  match d1, d2 with
  | Some t1, Some t2 => t1 ≤ t2
  | _, _ => False
  end.

(** The history is in the order of the clock: newest first. *)
Definition newest_first (h : list (entry K)) : Prop :=
  StronglySorted (λ e e', date_le (entry_date e') (entry_date e)) h.

(** The cache is in step with the clock at [clock]: the history records
    exactly the stored keys, newest first, none later than [clock], each at
    the instant stored with its key. *)
Definition in_step (clock : Z) (self : Self K V) : Prop :=
  hist_exact self ∧
  newest_first (__history self) ∧
  Forall (λ e, date_le (entry_date e) (Some clock)) (__history self) ∧
  ∀ e, e ∈ __history self →
    ∃ v, _cache self !! entry_key e = Some (Item v (entry_date e)).

End Traces.

(** * What uses the cache *)

(** ** Regular expressions, as [add_top_1] uses them *)


(** [\s], [\d] and case folding of the [re] module on 8-bit strings. *)
Definition is_space (c : ascii) : bool :=
  let n := N_of_ascii c in
  ((n =? 32) || ((9 <=? n) && (n <=? 13)))%N.

Definition is_digit (c : ascii) : bool :=
  let n := N_of_ascii c in ((48 <=? n) && (n <=? 57))%N.

Definition lower (c : ascii) : ascii :=
  let n := N_of_ascii c in
  if ((65 <=? n) && (n <=? 90))%N then ascii_of_N (n + 32) else c.

(** The constructs of the pattern of [add_top_1]: a character of a class,
    [class*] (greedy), sequence, [r1|r2], [r?] (greedy), a capturing group
    and the empty pattern. *)
Inductive regex :=
  | Eps
  | Chr (p : ascii → bool)
  | Star (p : ascii → bool)
  | Seq (r1 r2 : regex)
  | Alt (r1 r2 : regex)
  | Opt (r : regex)
  | Group (n : nat) (r : regex).

(** A word under [re.IGNORECASE]. *)
Fixpoint lit_ci (w : string) : regex :=
  match w with
  | EmptyString => Eps
  | String c w' => Seq (Chr (λ x, Ascii.eqb (lower x) (lower c))) (lit_ci w')
  end.

(** The text between the suffix [s] and its suffix [s']. *)
Definition consumed (s s' : string) : string :=
  String.substring 0 (String.length s - String.length s') s.

(** [class*] on [s]: the longest run first, then shorter ones, until the
    rest of the pattern, [k], matches. *)
Fixpoint star {R} (p : ascii → bool) (s : string) (k : string → option R)
    : option R :=
  match s with
  | String c s' =>
      if p c then
        match star p s' k with
        | Some x => Some x
        | None => k s
        end
      else k s
  | EmptyString => k s
  end.

(** Backtracking match of [r] at the start of [s]; [k] is the rest of the
    pattern, [g] the groups matched so far.  The first match in the order
    of the [re] module: a greedy construct tries to match before it tries
    not to, an alternation tries its left side first. *)
Fixpoint exec {R} (r : regex) (s : string) (g : gmap nat string)
    (k : string → gmap nat string → option R) : option R :=
  match r with
  | Eps => k s g
  | Chr p =>
      match s with
      | String c s' => if p c then k s' g else None
      | EmptyString => None
      end
  | Star p => star p s (λ s', k s' g)
  | Seq r1 r2 => exec r1 s g (λ s' g', exec r2 s' g' k)
  | Alt r1 r2 =>
      match exec r1 s g k with
      | Some x => Some x
      | None => exec r2 s g k
      end
  | Opt r' =>
      match exec r' s g k with
      | Some x => Some x
      | None => k s g
      end
  | Group n r' => exec r' s g (λ s' g', k s' (<[n := consumed s s']> g'))
  end.

(** [re.search]: the match at the leftmost position that has one. *)
Fixpoint search (r : regex) (s : string) : option (gmap nat string) :=
  match exec r s ∅ (λ _ g, Some g) with
  | Some g => Some g
  | None =>
      match s with
      | String _ s' => search r s'
      | EmptyString => None
      end
  end.

(** [match.group(n)] as [str.format] prints it. *)
Definition group (m : gmap nat string) (n : nat) : string :=
  match m !! n with
  | Some text => text
  | None => "None"
  end.

(** The pattern of [add_top_1], under [re.IGNORECASE]: optional white
    space; group 1, which is SELECT, white space, and optionally ALL, or
    DISTINCT and white space; optionally TOP, white space and digits; group
    2, which is every character that is left (the inline flag [s] makes the
    dot match line ends too). *)
Definition select_part : regex :=
  Seq (lit_ci "SELECT")
    (Seq (Star is_space)
       (Opt (Alt (lit_ci "ALL") (Seq (lit_ci "DISTINCT") (Star is_space))))).

Definition top_part : regex :=
  Seq (lit_ci "TOP") (Seq (Star is_space) (Seq (Chr is_digit) (Star is_digit))).

Definition top_core : regex :=
  Seq (Group 1 select_part)
    (Seq (Opt top_part) (Group 2 (Star (λ _, true)))).

Definition top_pattern : regex := Seq (Opt (Star is_space)) top_core.

(** [add_top_1] *)
Definition add_top_1 (query : string) : string :=
  match search top_pattern query with
  | None => query
  | Some m => group m 1 +:+ "TOP 1 " +:+ group m 2
  end.


(** ** Vocabulary of the properties of [add_top_1] *)

(** The longest run of [p] at the start of [s], and what follows it. *)
Fixpoint span (p : ascii → bool) (s : string) : string * string :=
  match s with
  | String c s' =>
      if p c then let (run, rest) := span p s' in (String c run, rest)
      else (EmptyString, s)
  | EmptyString => (EmptyString, EmptyString)
  end.

(** [s] split after the word [w], if it starts with it in some letter case. *)
Fixpoint split_ci (w s : string) : option (string * string) :=
  match w with
  | EmptyString => Some (EmptyString, s)
  | String c w' =>
      match s with
      | String x s' =>
          if Ascii.eqb (lower x) (lower c) then
            match split_ci w' s' with
            | Some (a, rest) => Some (String x a, rest)
            | None => None
            end
          else None
      | EmptyString => None
      end
  end.

Fixpoint lower_string (s : string) : string :=
  match s with
  | String c s' => String (lower c) (lower_string s')
  | EmptyString => EmptyString
  end.

Fixpoint all_chars (p : ascii → bool) (s : string) : bool :=
  match s with
  | String c s' => p c && all_chars p s'
  | EmptyString => true
  end.

Definition head_is (p : ascii → bool) (s : string) : bool :=
  match s with
  | String c _ => p c
  | EmptyString => false
  end.

(** [s] from the first place where SELECT starts, in any letter case. *)
Fixpoint first_select (s : string) : option string :=
  match split_ci "SELECT" s with
  | Some _ => Some s
  | None =>
      match s with
      | String _ s' => first_select s'
      | EmptyString => None
      end
  end.

(** What follows ALL, or DISTINCT and white space, at the start of [s];
    [s] itself if neither is there. *)
Definition skip_keyword (s : string) : string :=
  match split_ci "ALL" s with
  | Some (_, rest) => rest
  | None =>
      match split_ci "DISTINCT" s with
      | Some (_, rest) => snd (span is_space rest)
      | None => s
      end
  end.

(** What follows TOP, white space and digits at the start of [s]; [s]
    itself if they are not there. *)
Definition skip_top (s : string) : string :=
  match split_ci "TOP" s with
  | Some (_, s1) =>
      match snd (span is_space s1) with
      | String c s2 => if is_digit c then snd (span is_digit s2) else s
      | EmptyString => s
      end
  | None => s
  end.

(** ** Values that reach [SqlWrapper]

    The arguments of the static methods are any objects.  These are the
    kinds the code tells apart; [VObject] is any other object. *)

(** [Scripting.SqlDbType]; [DbType] names six of its members. *)
Inductive SqlDbType :=
  | SqlDbType_Bit
  | SqlDbType_Date
  | SqlDbType_DateTime
  | SqlDbType_Decimal
  | SqlDbType_Int
  | SqlDbType_NVarChar
  | SqlDbType_other (member : nat).

#[warnings="-register-all"]
Inductive PyVal :=
  | VNone
  | VBool (b : bool)
  | VInt (n : Z)
  | VFloat (mantissa exponent : Z)
  | VDecimal (unscaled scale : Z)
  | VStr (s : string)
  | VDateTime (ticks : Z)
  | VDbType (t : SqlDbType)
  | VTuple (items : list PyVal)
  | VList (items : list PyVal)
  | VDict (items : list (PyVal * PyVal))
  | VParam (ParameterName : string) (Value : PyVal) (DbType : SqlDbType)
  | VObject (id : nat).

(** [isinstance(x, str)] and the like; a [bool] is an [int]. *)
Definition isinstance_str (x : PyVal) : bool :=
  match x with VStr _ => true | _ => false end.
Definition isinstance_int (x : PyVal) : bool :=
  match x with VInt _ | VBool _ => true | _ => false end.
Definition isinstance_DateTime (x : PyVal) : bool :=
  match x with VDateTime _ => true | _ => false end.
Definition isinstance_float_Decimal (x : PyVal) : bool :=
  match x with VFloat _ _ | VDecimal _ _ => true | _ => false end.
Definition isinstance_tuple (x : PyVal) : bool :=
  match x with VTuple _ => true | _ => false end.
Definition isinstance_list (x : PyVal) : bool :=
  match x with VList _ => true | _ => false end.
Definition isinstance_dict (x : PyVal) : bool :=
  match x with VDict _ => true | _ => false end.
Definition isinstance_SqlDbType (x : PyVal) : bool :=
  match x with VDbType _ => true | _ => false end.
Definition isinstance_ISqlParameter (x : PyVal) : bool :=
  match x with VParam _ _ _ => true | _ => false end.

(** The truth value of an object, as [not x] and [if x] take it. *)
Definition truth (x : PyVal) : bool :=
  match x with
  | VNone => false
  | VBool b => b
  | VInt n => negb (n =? 0)
  | VFloat m _ => negb (m =? 0)
  | VDecimal u _ => negb (u =? 0)
  | VStr s => negb (String.eqb s "")
  | VTuple items | VList items => match items with [] => false | _ => true end
  | VDict items => match items with [] => false | _ => true end
  | VDateTime _ | VDbType _ | VParam _ _ _ | VObject _ => true
  end.

(** ** class DbType *)
Module DbType.
Definition BIT := SqlDbType_Bit.
Definition DATE := SqlDbType_Date.
Definition DATETIME := SqlDbType_DateTime.
Definition DECIMAL := SqlDbType_Decimal.
Definition INT := SqlDbType_Int.
Definition NVARCHAR := SqlDbType_NVarChar.
End DbType.

(** ** unpack_tuple_argument

    The wrapper that the decorator puts around [func]. *)
Definition unpack_tuple_argument {A} (func : PyVal → list PyVal → A)
    (query : PyVal) (params : list PyVal) : A :=
  match params with
  | [VTuple items] => func query items    (* len(params) == 1 and a tuple *)
  | _ => func query params
  end.

(** ** class SqlWrapper *)
Module SqlWrapper.

(** A cache key: the query and the serialized parameters. *)
Definition Key : Type := string * string.

(** What the calls do to the host: errors logged, traces written, and
    lookups in the database. *)
Inductive event :=
  | Log_Error (message : string)
  | Trace_Write (message : string)
  | SqlHelper_GetList (query : string) (params : list PyVal)
  | SqlHelper_GetFirst (query : string) (params : list PyVal).

(** The host as one call finds it: [DateTime.UtcNow] when the cache is
    read and when the result is stored, the trace switch, and what the
    database answers. *)
Record Host := MkHost {
  UtcNow : Z;
  UtcNow_stored : Z;
  Trace_IsOn : bool;
  GetList : string → list PyVal → list PyVal;
  GetFirst : string → list PyVal → PyVal
}.

(** The class attributes that change, and the events so far. *)
Record state := MkState {
  first_cache : Self Key PyVal;
  list_cache : Self Key PyVal;
  events : list event
}.

Inductive error :=
  | CacheError (e : exn Key)           (* raised by a cache *)
  | AttributeError (msg : string).

Inductive result (A : Type) :=
  | Returns (a : A)
  | Raises (e : error)
  | NoFuel.
Arguments Returns {A} a.
Arguments Raises {A} e.
Arguments NoFuel {A}.

Definition W (A : Type) : Type := state → result A * state.

Definition wret {A} (a : A) : W A := λ st, (Returns a, st).

Definition wbind {A B} (m : W A) (k : A → W B) : W B := λ st,
  match m st with
  | (Returns a, st') => k a st'
  | (Raises e, st') => (Raises e, st')
  | (NoFuel, st') => (NoFuel, st')
  end.

#[global] Instance W_ret : MRet W := @wret.
#[global] Instance W_bind : MBind W := λ A B k m, wbind m k.

Definition wraise {A} (e : error) : W A := λ st, (Raises e, st).

Definition emit (e : event) : W unit := λ st,
  (Returns tt, MkState (first_cache st) (list_cache st) (events st ++ [e])).

(** A method call on [SqlWrapper.list_cache] or [SqlWrapper.first_cache]. *)
Definition lift_outcome {A} (o : outcome Key A) : result A :=
  match o with
  | Return a => Returns a
  | Raise e => Raises (CacheError e)
  | OutOfFuel => NoFuel
  end.

Definition on_list_cache {A} (m : M Key PyVal A) : W A := λ st,
  let (o, c) := m (list_cache st) in
  (lift_outcome o, MkState (first_cache st) c (events st)).

Definition on_first_cache {A} (m : M Key PyVal A) : W A := λ st,
  let (o, c) := m (first_cache st) in
  (lift_outcome o, MkState c (list_cache st) (events st)).

(** [try: body / except KeyError: handler] *)
Definition try_except {A} (body handler : W A) : W A := λ st,
  match body st with
  | (Raises (CacheError e), st') =>
      if is_KeyError e then handler st' else (Raises (CacheError e), st')
  | r => r
  end.

Definition TRACE_PREFIX : string := "Baltimore ".
Definition TRACE_CACHE_USAGE_MESSAGE : string := "Using cached result for ".

(** What the runtime fixes once: [JsonHelper.Serialize], how [str.format]
    prints an object, and the [__name__] of the two decorated methods. *)
Class Runtime := {
  JsonHelper_Serialize : PyVal → string;
  format_value : PyVal → string;
  get_list__name__ : string;
  get_first__name__ : string
}.

Section Methods.
Context `{Runtime}.

(** [SqlWrapper.get_data_type]; the time of day prints as 00:00:00 exactly
    when it has no ticks. *)
Definition get_data_type (value : PyVal) : SqlDbType :=
  if isinstance_str value then DbType.NVARCHAR
  else if isinstance_int value then DbType.INT
  else match value with
       | VDateTime ticks =>
           if bool_decide (ticks `mod` 864000000000 = 0) then DbType.DATE
           else DbType.DATETIME
       | _ =>
           if isinstance_float_Decimal value then DbType.DECIMAL
           else DbType.NVARCHAR
       end.

(** [SqlWrapper.create_parameter]; [SqlHelper.CreateParameter] gives the
    parameter object with this value, name and type. *)
Definition create_parameter (name value data_type : PyVal) : PyVal :=
  let data_type :=
    match data_type with
    | VNone => VDbType (get_data_type value)
    | _ => data_type
    end in
  match name, data_type with
  | VStr name, VDbType t => VParam name value t
  | _, _ => VNone
  end.

(** [SqlWrapper.create_parameters] *)
Definition create_parameters (value_by_name : PyVal) : list PyVal :=
  match value_by_name with
  | VDict items => (λ nv, create_parameter nv.1 nv.2 VNone) <$> items
  | _ => []
  end.

(** [d[name] = value] on a dict kept in the order of first insertion. *)
Fixpoint dict_set (d : list (string * PyVal)) (name : string) (value : PyVal)
    : list (string * PyVal) :=
  match d with
  | [] => [(name, value)]
  | (n, v) :: d' =>
      if String.eqb n name then (n, value) :: d'
      else (n, v) :: dict_set d' name value
  end.

(** [{param.ParameterName: param.Value for param in params}] *)
Fixpoint params_dict (params : list PyVal) (d : list (string * PyVal))
    : error + list (string * PyVal) :=
  match params with
  | [] => inr d
  | VParam name value _ :: params' => params_dict params' (dict_set d name value)
  | _ :: _ => inl (AttributeError "ParameterName")
  end.

Definition dict_value (d : list (string * PyVal)) : PyVal :=
  VDict ((λ nv, (VStr nv.1, nv.2)) <$> d).

(** [SqlWrapper.serialize] *)
Definition serialize (params : list PyVal) : error + string :=
  match params with
  | [] => inr ""
  | _ =>
      match params_dict params [] with
      | inl e => inl e
      | inr d => inr (JsonHelper_Serialize (dict_value d))
      end
  end.

Definition lift {A} (r : error + A) : W A :=
  match r with
  | inl e => wraise e
  | inr a => wret a
  end.

(** [SqlWrapper.any_invalid_parameters] *)
Definition any_invalid_parameters (params : list PyVal) : bool :=
  match params with
  | [] => false
  | _ => existsb (λ param, negb (isinstance_ISqlParameter param)) params
  end.

(** [SqlWrapper.get_cache_key], for a query that is a [str]. *)
Definition get_cache_key (query : string) (params : list PyVal) : error + Key :=
  match serialize params with
  | inl e => inl e
  | inr s => inr (query, s)
  end.

(** [SqlWrapper.is_valid] *)
Definition is_valid (query : PyVal) (params : list PyVal) : W bool :=
  if negb (truth query) || negb (isinstance_str query) then
    emit (Log_Error (TRACE_PREFIX +:+ "SqlWrapper - Invalid query: "
                       +:+ format_value query)) ;;
    mret false
  else if any_invalid_parameters params then
    emit (Log_Error (TRACE_PREFIX +:+ "SqlWrapper - Invalid params: "
                       +:+ format_value (VTuple params))) ;;
    mret false
  else mret true.

Definition newline : string := String (ascii_of_nat 10) "".

(** The text [trace_result] writes. *)
Definition trace_text (result : PyVal) (query message serialized : string)
    : string :=
  let name :=
    if isinstance_list result then get_list__name__ else get_first__name__ in
  let description := TRACE_PREFIX +:+ "SqlWrapper - " +:+ message +:+ name in
  description +:+ ";" +:+ newline
  +:+ "            query: '" +:+ query +:+ "'" +:+ newline
  +:+ "            params: " +:+ serialized +:+ newline
  +:+ "            result: " +:+ JsonHelper_Serialize result +:+ newline
  +:+ "        ".

(** [SqlWrapper.trace_result], for a query that is a [str]. *)
Definition trace_result (host : Host) (result : PyVal)
    (query message : string) (params : list PyVal) : W unit :=
  if negb (Trace_IsOn host) then mret tt
  else
    serialized ← lift (serialize params);
    emit (Trace_Write (trace_text result query message serialized)).

(** The body of [SqlWrapper.get_list], under the decorator. *)
Definition get_list_body (host : Host) (query : PyVal) (params : list PyVal)
    : W PyVal :=
  valid ← is_valid query params;
  if negb valid then mret (VList [])
  else
    match query with
    | VStr query =>
        key ← lift (get_cache_key query params);
        hit ← try_except
                 (result ← on_list_cache (__getitem__ (UtcNow host) key);
                  mret (TRACE_CACHE_USAGE_MESSAGE, result))
                 (emit (SqlHelper_GetList query params) ;;
                  let result := VList (GetList host query params) in
                  on_list_cache (__setitem__ (UtcNow_stored host) key result) ;;
                  mret ("", result));
        trace_result host hit.2 query hit.1 params ;;
        mret hit.2
    | _ => mret (VList [])      (* not reached: [is_valid] said no *)
    end.

Definition get_list (host : Host) : PyVal → list PyVal → W PyVal :=
  unpack_tuple_argument (get_list_body host).

(** The body of [SqlWrapper.get_first], under the decorator. *)
Definition get_first_body (host : Host) (query : PyVal) (params : list PyVal)
    : W PyVal :=
  valid ← is_valid query params;
  if negb valid then mret VNone
  else
    match query with
    | VStr query =>
        let query := add_top_1 query in
        key ← lift (get_cache_key query params);
        hit ← try_except
                 (result ← on_first_cache (__getitem__ (UtcNow host) key);
                  mret (TRACE_CACHE_USAGE_MESSAGE, result))
                 (emit (SqlHelper_GetFirst query params) ;;
                  let result := GetFirst host query params in
                  on_first_cache (__setitem__ (UtcNow_stored host) key result) ;;
                  mret ("", result));
        trace_result host hit.2 query hit.1 params ;;
        mret hit.2
    | _ => mret VNone           (* not reached: [is_valid] said no *)
    end.

Definition get_first (host : Host) : PyVal → list PyVal → W PyVal :=
  unpack_tuple_argument (get_first_body host).

(** The body of [SqlWrapper.get_first_direct]. *)
Definition get_first_direct_body (host : Host) (query : PyVal)
    (params : list PyVal) : W PyVal :=
  valid ← is_valid query params;
  if negb valid then mret VNone
  else
    match query with
    | VStr query =>
        let query := add_top_1 query in
        emit (SqlHelper_GetFirst query params) ;;
        let result := GetFirst host query params in
        trace_result host result query "" params ;;
        mret result
    | _ => mret VNone
    end.

Definition get_first_direct (host : Host) : PyVal → list PyVal → W PyVal :=
  unpack_tuple_argument (get_first_direct_body host).

(** The body of [SqlWrapper.get_list_direct]. *)
Definition get_list_direct_body (host : Host) (query : PyVal)
    (params : list PyVal) : W PyVal :=
  valid ← is_valid query params;
  if negb valid then mret (VList [])
  else
    match query with
    | VStr query =>
        emit (SqlHelper_GetList query params) ;;
        let result := VList (GetList host query params) in
        trace_result host result query "" params ;;
        mret result
    | _ => mret (VList [])
    end.

Definition get_list_direct (host : Host) : PyVal → list PyVal → W PyVal :=
  unpack_tuple_argument (get_list_direct_body host).

(** ** Vocabulary of the properties *)

(** The parameters as the decorated function gets them. *)
Definition unpacked (params : list PyVal) : list PyVal :=
  unpack_tuple_argument (λ _ params, params) VNone params.

(** The input [is_valid] accepts. *)
Definition valid_input (query : PyVal) (params : list PyVal) : bool :=
  truth query && isinstance_str query && negb (any_invalid_parameters params).

(** The events [trace_result] adds. *)
Definition traced (host : Host) (result : PyVal) (query message : string)
    (params : list PyVal) : list event :=
  if Trace_IsOn host then
    match serialize params with
    | inr serialized => [Trace_Write (trace_text result query message serialized)]
    | inl _ => []
    end
  else [].

(** Calls of [get_list], one after the other, each with the host as it
    finds it. *)
Fixpoint get_lists (calls : list (Host * string * list PyVal))
    : W (list PyVal) :=
  match calls with
  | [] => mret []
  | (host, query, params) :: calls' =>
      result ← get_list host (VStr query) params;
      results ← get_lists calls';
      mret (result :: results)
  end.

(** What the cache of [get_list] is for: a table of the last answer of the
    database for each key and the instant it was given; an answer is used
    again for [ttl] ticks.  [ideal_get_lists] gives, for each call, the
    result and the lookup in the database, if one is made. *)
Fixpoint ideal_get_lists (ttl : Z) (calls : list (Host * string * list PyVal))
    (table : gmap Key (PyVal * Z)) : list (PyVal * list event) :=
  match calls with
  | [] => []
  | (host, query, params) :: calls' =>
      match get_cache_key query params with
      | inl _ => []
      | inr key =>
          let asked :=
            let result := VList (GetList host query params) in
            (result, [SqlHelper_GetList query params])
            :: ideal_get_lists ttl calls'
                 (<[key := (result, UtcNow_stored host)]> table) in
          match table !! key with
          | Some (result, t) =>
              if bool_decide (UtcNow host - t ≤ ttl)
              then (result, []) :: ideal_get_lists ttl calls' table
              else asked
          | None => asked
          end
      end
  end.

End Methods.

(** The lookups in the database among the events. *)
Definition is_lookup (e : event) : bool :=
  match e with
  | SqlHelper_GetList _ _ | SqlHelper_GetFirst _ _ => true
  | _ => false
  end.

(** The clock never goes back: in each call the result is stored no
    earlier than the cache is read, and no later than the next call reads. *)
Definition clock_runs_on (calls : list (Host * string * list PyVal)) : Prop :=
  Forall (λ c, UtcNow c.1.1 ≤ UtcNow_stored c.1.1) calls ∧
  StronglySorted (λ c c', UtcNow_stored c.1.1 ≤ UtcNow c'.1.1) calls.

(** The name and the value of a parameter. *)
Definition name_value (param : PyVal) : option (string * PyVal) :=
  match param with
  | VParam name value _ => Some (name, value)
  | _ => None
  end.

(** The cache agrees with the table at [clock]: it is in step with the
    clock, what it stores the table has, and what it has lost has expired. *)
Definition agrees (clock : Z) (cache : Self Key PyVal)
    (table : gmap Key (PyVal * Z)) : Prop :=
  in_step clock cache ∧
  ∀ key,
    match _cache cache !! key with
    | Some it =>
        ∃ t, item_date it = Some t ∧ table !! key = Some (item_value it, t)
    | None =>
        ∀ result t, table !! key = Some (result, t) →
                    clock - t > __time_to_live cache
    end.

(** The class as the module is loaded: two caches of two minutes. *)
Definition loaded : state :=
  MkState (MkSelf ∅ two_minutes []) (MkSelf ∅ two_minutes []) [].

End SqlWrapper.

(** ** Examples: a runtime, a host and three lookups *)

(** A runtime that serializes every object to the same text. *)
Definition plain_runtime : SqlWrapper.Runtime := {|
  SqlWrapper.JsonHelper_Serialize := λ _, "{}";
  SqlWrapper.format_value := λ _, "?";
  SqlWrapper.get_list__name__ := "get_list";
  SqlWrapper.get_first__name__ := "get_first"
|}.

Definition db_rows : list PyVal := [VObject 1; VObject 2].

(** A host at [now] whose database answers [db_rows]. *)
Definition host_at (now : Z) : SqlWrapper.Host :=
  SqlWrapper.MkHost now now false (λ _ _, db_rows) (λ _ _, VObject 1).

Definition a_query : string := "SELECT a FROM t".
Definition a_param : PyVal := VParam "id" (VInt 7) DbType.INT.

(** The class after a lookup of [a_query] at 0. *)
Definition looked_up : SqlWrapper.state :=
  SqlWrapper.MkState (SqlWrapper.first_cache SqlWrapper.loaded)
          (MkSelf {[ (a_query, "{}") := Item (VList db_rows) (Some 0) ]}
                  two_minutes [Entry (a_query, "{}") (Some 0)])
          [SqlWrapper.SqlHelper_GetList a_query [a_param]].

(** Three lookups of [a_query]: at 0, 90 s later, and 150 s after the first. *)
Definition three_lookups : list (SqlWrapper.Host * string * list PyVal) :=
  [(host_at 0, a_query, [a_param]);
   (host_at (seconds 90), a_query, [a_param]);
   (host_at (seconds 150), a_query, [a_param])].

(** * Properties *)

Section Properties.
Context `{Countable K} {V : Type}.
Implicit Types (self : Self K V) (key : K) (value : V) (now : Z)
  (h : list (entry K)) (m : gmap K (item V)) (e : entry K).

(** Unfolds the monad down to pairs. *)
Ltac unfold_M :=
  unfold mbind, mret, M_bind, M_ret, bind, ret, raise, get_self, out_of_fuel.

Ltac unfold_ops :=
  unfold dict_getitem, dict_setitem, dict_pop, dict_not_in, list_pop,
    list_insert_0, set_cache, set_history.

(** ** The expiry test *)

Lemma has_expired_Some now d self :
  has_expired now (Some d) self = true ↔ now - d > __time_to_live self.
Proof. unfold has_expired. apply bool_decide_eq_true. Qed.

Lemma has_expired_ttl now d self self' :
  __time_to_live self = __time_to_live self' →
  has_expired now d self = has_expired now d self'.
Proof. intros Httl. unfold has_expired. destruct d; [|done]. by rewrite Httl. Qed.

(** ** One pass through the loop body *)

Lemma sweep_body_break now m ttl h e :
  has_expired now (entry_date e) (MkSelf m ttl (h ++ [e])) = false →
  sweep_body now (MkSelf m ttl (h ++ [e])) = (Return false, MkSelf m ttl (h ++ [e])).
Proof.
  intros Hexp. unfold sweep_body. unfold_M. cbn [__history].
  rewrite last_snoc. by rewrite Hexp.
Qed.

Lemma sweep_body_pop now m ttl h e it :
  has_expired now (entry_date e) (MkSelf m ttl (h ++ [e])) = true →
  m !! entry_key e = Some it →
  sweep_body now (MkSelf m ttl (h ++ [e]))
  = (Return true, MkSelf (delete (entry_key e) m) ttl h).
Proof.
  intros Hexp Hm. unfold sweep_body. unfold_M. cbn [__history].
  rewrite last_snoc, Hexp. unfold_ops. cbn.
  rewrite Hm. cbn. by rewrite last_snoc, removelast_last.
Qed.

Lemma sweep_body_raise now m ttl h e :
  has_expired now (entry_date e) (MkSelf m ttl (h ++ [e])) = true →
  m !! entry_key e = None →
  sweep_body now (MkSelf m ttl (h ++ [e]))
  = (Raise (KeyError (entry_key e)), MkSelf m ttl (h ++ [e])).
Proof.
  intros Hexp Hm. unfold sweep_body. unfold_M. cbn [__history].
  rewrite last_snoc, Hexp. unfold_ops. cbn. by rewrite Hm.
Qed.

(** ** The loop *)

Lemma snoc_cases h : h = [] ∨ ∃ h' e, h = h' ++ [e].
Proof. destruct h as [|e h _] using rev_ind; eauto. Qed.

Lemma sweep_loop_nil fuel now m ttl :
  sweep_loop fuel now (MkSelf m ttl []) = (Return tt, MkSelf m ttl []).
Proof. by destruct fuel. Qed.

Lemma sweep_loop_enter fuel now self :
  __history self ≠ [] →
  sweep_loop (S fuel) now self
  = match sweep_body now self with
    | (Return true, self') => sweep_loop fuel now self'
    | (Return false, self') => (Return tt, self')
    | (Raise e, self') => (Raise e, self')
    | (OutOfFuel, self') => (OutOfFuel, self')
    end.
Proof.
  intros Hne. cbn [sweep_loop]. unfold_M.
  rewrite bool_decide_eq_true_2 by (destruct (__history self); [done | cbn; lia]).
  destruct (sweep_body now self) as [[[]| |] ?]; done.
Qed.

Lemma sweep_loop_break fuel now m ttl h e :
  has_expired now (entry_date e) (MkSelf m ttl (h ++ [e])) = false →
  sweep_loop (S fuel) now (MkSelf m ttl (h ++ [e]))
  = (Return tt, MkSelf m ttl (h ++ [e])).
Proof.
  intros Hexp. rewrite sweep_loop_enter by (cbn; by destruct h).
  by rewrite sweep_body_break.
Qed.

Lemma sweep_loop_pop fuel now m ttl h e it :
  has_expired now (entry_date e) (MkSelf m ttl (h ++ [e])) = true →
  m !! entry_key e = Some it →
  sweep_loop (S fuel) now (MkSelf m ttl (h ++ [e]))
  = sweep_loop fuel now (MkSelf (delete (entry_key e) m) ttl h).
Proof.
  intros Hexp Hm. rewrite sweep_loop_enter by (cbn; by destruct h).
  by rewrite (sweep_body_pop _ _ _ _ _ it).
Qed.

Lemma sweep_loop_raise fuel now m ttl h e :
  has_expired now (entry_date e) (MkSelf m ttl (h ++ [e])) = true →
  m !! entry_key e = None →
  sweep_loop (S fuel) now (MkSelf m ttl (h ++ [e]))
  = (Raise (KeyError (entry_key e)), MkSelf m ttl (h ++ [e])).
Proof.
  intros Hexp Hm. rewrite sweep_loop_enter by (cbn; by destruct h).
  by rewrite sweep_body_raise.
Qed.

(** What one pass does, by cases on the oldest entry. *)
Lemma sweep_body_cases now m ttl h e :
  let self := MkSelf m ttl (h ++ [e]) in
  sweep_body now self = (Return false, self) ∨
  sweep_body now self = (Return true, MkSelf (delete (entry_key e) m) ttl h) ∨
  sweep_body now self = (Raise (KeyError (entry_key e)), self).
Proof.
  intros self.
  destruct (has_expired now (entry_date e) self) eqn:Hexp.
  - destruct (m !! entry_key e) as [it|] eqn:Hm.
    + right; left. by apply (sweep_body_pop _ _ _ _ _ it).
    + right; right. by apply sweep_body_raise.
  - left. by apply sweep_body_break.
Qed.

(** With [len(self.__history)] passes or more, the loop runs to its end,
    and the answer does not depend on the fuel. *)
Lemma sweep_loop_fuel now h : ∀ fuel m ttl,
  (length h ≤ fuel)%nat →
  fst (sweep_loop fuel now (MkSelf m ttl h)) ≠ OutOfFuel ∧
  sweep_loop fuel now (MkSelf m ttl h)
  = sweep_loop (length h) now (MkSelf m ttl h).
Proof.
  induction h as [|e h IH] using rev_ind; intros fuel m ttl Hfuel.
  - by rewrite !sweep_loop_nil.
  - rewrite length_app in *. cbn [length] in *.
    destruct fuel as [|fuel]; [lia|].
    replace (length h + 1)%nat with (S (length h)) by lia.
    rewrite !sweep_loop_enter by (cbn; by destruct h).
    destruct (sweep_body_cases now m ttl h e) as [-> | [-> | ->]]; [done| |done].
    apply IH. lia.
Qed.

Lemma _remove_invalid_loop now self :
  _remove_invalid now self = sweep_loop (length (__history self)) now self.
Proof.
  unfold _remove_invalid. unfold_M. destruct self as [m ttl [|e h]]; done.
Qed.

Lemma remove_invalid_nil now m ttl :
  _remove_invalid now (MkSelf m ttl []) = (Return tt, MkSelf m ttl []).
Proof. done. Qed.

Lemma snoc_length h e : length (h ++ [e]) = S (length h).
Proof. rewrite length_app. cbn. lia. Qed.

Lemma remove_invalid_break now m ttl h e :
  has_expired now (entry_date e) (MkSelf m ttl (h ++ [e])) = false →
  _remove_invalid now (MkSelf m ttl (h ++ [e]))
  = (Return tt, MkSelf m ttl (h ++ [e])).
Proof.
  intros Hexp. rewrite _remove_invalid_loop. cbn [__history].
  rewrite snoc_length. by apply sweep_loop_break.
Qed.

Lemma remove_invalid_pop now m ttl h e it :
  has_expired now (entry_date e) (MkSelf m ttl (h ++ [e])) = true →
  m !! entry_key e = Some it →
  _remove_invalid now (MkSelf m ttl (h ++ [e]))
  = _remove_invalid now (MkSelf (delete (entry_key e) m) ttl h).
Proof.
  intros Hexp Hm. rewrite !_remove_invalid_loop. cbn [__history].
  rewrite snoc_length. by apply (sweep_loop_pop _ _ _ _ _ _ it).
Qed.

Lemma remove_invalid_raise now m ttl h e :
  has_expired now (entry_date e) (MkSelf m ttl (h ++ [e])) = true →
  m !! entry_key e = None →
  _remove_invalid now (MkSelf m ttl (h ++ [e]))
  = (Raise (KeyError (entry_key e)), MkSelf m ttl (h ++ [e])).
Proof.
  intros Hexp Hm. rewrite _remove_invalid_loop. cbn [__history].
  rewrite snoc_length. by apply sweep_loop_raise.
Qed.

(** ** The sweep in closed form *)

Lemma survivors_snoc (stale : entry K → bool) h e :
  survivors stale (h ++ [e])
  = if stale e then survivors stale h else h ++ [e].
Proof.
  induction h as [|x h IH]; cbn [survivors app].
  - cbn. by destruct (stale e).
  - cbn [forallb]. rewrite forallb_app, IH. cbn [forallb].
    by destruct (stale e), (stale x), (forallb stale h).
Qed.

Lemma survivors_length (stale : entry K → bool) h :
  (length (survivors stale h) ≤ length h)%nat.
Proof.
  induction h as [|x h IH]; [done|]. cbn [survivors].
  destruct (forallb stale (x :: h)); cbn; lia.
Qed.

Lemma evicted_snoc (stale : entry K → bool) h e :
  evicted stale (h ++ [e])
  = if stale e then evicted stale h ++ [e] else [].
Proof.
  unfold evicted. rewrite survivors_snoc. destruct (stale e).
  - apply drop_app_le, survivors_length.
  - apply drop_all.
Qed.

Lemma survivors_evicted (stale : entry K → bool) h :
  survivors stale h ++ evicted stale h = h.
Proof.
  induction h as [|e h IH] using rev_ind; [done|].
  rewrite survivors_snoc, evicted_snoc. destruct (stale e).
  - by rewrite app_assoc, IH.
  - by rewrite app_nil_r.
Qed.

Lemma evict_snoc m (es : list (entry K)) e :
  evict m (es ++ [e]) = evict (delete (entry_key e) m) es.
Proof. unfold evict. by rewrite foldr_app. Qed.

Lemma lookup_evict m (es : list (entry K)) key :
  evict m es !! key
  = if decide (key ∈ entry_key <$> es) then None else m !! key.
Proof.
  induction es as [|e es IH].
  - cbn. case_decide as Hin; [by apply elem_of_nil in Hin | done].
  - change (evict m (e :: es)) with (delete (entry_key e) (evict m es)).
    rewrite fmap_cons.
    destruct (decide (entry_key e = key)) as [->|Hne].
    + rewrite lookup_delete_eq. rewrite decide_True; [done | left].
    + rewrite lookup_delete_ne, IH by done.
      destruct (decide (key ∈ entry_key <$> es)) as [Hin|Hnin].
      * rewrite decide_True; [done | by right].
      * rewrite decide_False; [done|].
        intros [?|?]%elem_of_cons; [congruence | done].
Qed.

(** A sweep of a cache whose history agrees with the dict returns, and
    leaves [swept]. *)
Lemma sweep_loop_swept now ttl h : ∀ m,
  NoDup (entry_key <$> h) →
  (∀ e, e ∈ h → is_Some (m !! entry_key e)) →
  sweep_loop (length h) now (MkSelf m ttl h)
  = (Return tt, swept now (MkSelf m ttl h)).
Proof.
  unfold swept. cbn [_cache __history __time_to_live].
  induction h as [|e h IH] using rev_ind; intros m Hnd Hin.
  - by rewrite sweep_loop_nil.
  - rewrite length_app. cbn [length].
    replace (length h + 1)%nat with (S (length h)) by lia.
    rewrite survivors_snoc, evicted_snoc.
    rewrite fmap_app in Hnd. cbn in Hnd.
    apply NoDup_app in Hnd as (Hnd & Hfresh & _).
    destruct (has_expired now (entry_date e) (MkSelf m ttl (h ++ [e]))) eqn:Hexp.
    + destruct (Hin e) as [it Hit]; [set_solver|].
      rewrite (sweep_loop_pop _ _ _ _ _ _ it) by done.
      rewrite evict_snoc. rewrite IH; [done | done |].
      intros e' He'. rewrite lookup_delete_ne.
      * apply Hin. set_solver.
      * intros Heq. apply (Hfresh (entry_key e')); [|set_solver].
        apply list_elem_of_fmap. eauto.
    + rewrite sweep_loop_break by done. by rewrite drop_all || done.
Qed.

Lemma _remove_invalid_swept now self :
  hist_ok self → _remove_invalid now self = (Return tt, swept now self).
Proof.
  intros [Hnd Hin]. rewrite _remove_invalid_loop.
  destruct self as [m ttl h]. by apply sweep_loop_swept.
Qed.

(** ** Writing *)

(** [__setitem__] is the sweep followed by the write. *)
Lemma setitem_unfold now key value self :
  __setitem__ now key value self
  = match _remove_invalid now self with
    | (Return _, self1) =>
        (Return tt,
         MkSelf (<[key := Item value (Some now)]> (_cache self1))
                (__time_to_live self1)
                (if decide (_cache self1 !! key = None)
                 then Entry key (Some now) :: __history self1
                 else __history self1))
    | (Raise e, self1) => (Raise e, self1)
    | (OutOfFuel, self1) => (OutOfFuel, self1)
    end.
Proof.
  unfold __setitem__, Cache__setitem__. unfold_M.
  destruct (_remove_invalid now self) as [[[]|e|] self1]; [|done..].
  unfold_ops. cbn.
  destruct (decide (_cache self1 !! key = None)) as [Hnew|Hold].
  - by rewrite bool_decide_eq_true_2.
  - rewrite bool_decide_eq_false_2 by done. by destruct self1.
Qed.

Lemma setitem_returns now key value self self1 :
  _remove_invalid now self = (Return tt, self1) →
  __setitem__ now key value self
  = (Return tt,
     MkSelf (<[key := Item value (Some now)]> (_cache self1))
            (__time_to_live self1)
            (if decide (_cache self1 !! key = None)
             then Entry key (Some now) :: __history self1
             else __history self1)).
Proof. intros Hsweep. by rewrite setitem_unfold, Hsweep. Qed.

Lemma setitem_inv now key value self self' :
  __setitem__ now key value self = (Return tt, self') →
  ∃ self1, _remove_invalid now self = (Return tt, self1) ∧
    self' = MkSelf (<[key := Item value (Some now)]> (_cache self1))
                   (__time_to_live self1)
                   (if decide (_cache self1 !! key = None)
                    then Entry key (Some now) :: __history self1
                    else __history self1).
Proof.
  rewrite setitem_unfold.
  destruct (_remove_invalid now self) as [[[]|e|] self1]; [|done..].
  intros [= <-]. eauto.
Qed.

(** ** What a sweep can change *)

(** The sweep never touches the time to live, only removes from the dict,
    and only pops from the end of the history: whatever the fuel and
    however it ends. *)
Lemma sweep_loop_shrinks now : ∀ fuel self,
  let self' := snd (sweep_loop fuel now self) in
  __time_to_live self' = __time_to_live self ∧
  (∀ key, _cache self' !! key = _cache self !! key ∨ _cache self' !! key = None) ∧
  __history self' `prefix_of` __history self.
Proof.
  induction fuel as [|fuel IH]; intros [m ttl h].
  - cbn. unfold_M. case_bool_decide; cbn; eauto.
  - destruct (snoc_cases h) as [-> | (h' & e & ->)].
    + rewrite sweep_loop_nil. cbn. eauto.
    + rewrite sweep_loop_enter by (cbn; by destruct h').
      destruct (sweep_body_cases now m ttl h' e) as [-> | [-> | ->]];
        cbn zeta; [cbn; by eauto | | cbn; by eauto].
      specialize (IH (MkSelf (delete (entry_key e) m) ttl h')).
      cbn zeta in IH. destruct IH as (Httl & Hm & Hh).
      cbn [_cache __time_to_live __history] in *. split_and!; [done | |].
      * intros key. destruct (Hm key) as [Hk | Hk]; [|by right].
        rewrite Hk. destruct (decide (entry_key e = key)) as [->|Hne].
        -- right. apply lookup_delete_eq.
        -- left. by apply lookup_delete_ne.
      * etrans; [done|]. by apply prefix_app_r.
Qed.

Lemma _remove_invalid_shrinks now self :
  let self' := snd (_remove_invalid now self) in
  __time_to_live self' = __time_to_live self ∧
  (∀ key, _cache self' !! key = _cache self !! key ∨ _cache self' !! key = None) ∧
  __history self' `prefix_of` __history self.
Proof. rewrite _remove_invalid_loop. apply sweep_loop_shrinks. Qed.

(** ** Reading, deleting, clearing *)

Lemma getitem_spec now key self :
  __getitem__ now key self
  = match _cache self !! key with
    | None => (Raise (KeyError key), self)
    | Some it =>
        if has_expired now (item_date it) self then (Raise (KeyError key), self)
        else (Return (item_value it), self)
    end.
Proof.
  unfold __getitem__, Cache__getitem__, _is_valid. unfold_M. unfold_ops.
  destruct (_cache self !! key) as [it|] eqn:Hm; [|done].
  destruct (has_expired now (item_date it) self); cbn; [done|].
  by rewrite Hm.
Qed.

Lemma delitem_spec key self :
  __delitem__ key self
  = match _cache self !! key with
    | Some _ => (Return tt, set_cache (delete key) self)
    | None => (Raise (KeyError key), self)
    end.
Proof.
  unfold __delitem__. unfold_M. unfold_ops.
  by destruct (_cache self !! key).
Qed.

Lemma clear_loop_spec ttl h : ∀ fuel m,
  (size m < fuel)%nat →
  clear_loop fuel (MkSelf m ttl h)
  = (Raise (KeyError_msg "popitem(): dictionary is empty"), MkSelf ∅ ttl h).
Proof.
  induction fuel as [|fuel IH]; intros m Hfuel; [lia|].
  cbn [clear_loop]. unfold_M. unfold dict_popitem, set_cache.
  cbn [_cache __time_to_live __history].
  destruct (map_to_list m) as [|[k it] l] eqn:Hl.
  - apply map_to_list_empty_iff in Hl. by subst.
  - assert (m !! k = Some it) as Hk.
    { apply elem_of_map_to_list. rewrite Hl. left. }
    apply IH. rewrite map_size_delete_Some by eauto.
    assert (size m ≠ 0%nat); [|lia].
    intros Hz%map_size_empty_inv. by subst.
Qed.

Lemma clear_spec self :
  clear self = (Return tt, MkSelf ∅ (__time_to_live self) (__history self)).
Proof.
  destruct self as [m ttl h]. unfold clear, clear_fuel, try_except_KeyError.
  cbn [_cache __time_to_live __history].
  by rewrite clear_loop_spec by lia.
Qed.

(** ** What any call can change *)

(** No call changes the time to live, and a call that is not a write of
    [key] leaves the item stored under [key] alone or removes it. *)
Lemma after_time_to_live (c : call K V) self :
  __time_to_live (after c self) = __time_to_live self.
Proof.
  destruct c as [now key value|now key|key| |now]; cbn [after].
  - rewrite setitem_unfold.
    pose proof (_remove_invalid_shrinks now self) as (Httl & _).
    by destruct (_remove_invalid now self) as [[[]|e|] self1].
  - rewrite getitem_spec. destruct (_cache self !! key) as [it|]; [|done].
    by destruct (has_expired now (item_date it) self).
  - rewrite delitem_spec. by destruct (_cache self !! key).
  - by rewrite clear_spec.
  - apply _remove_invalid_shrinks.
Qed.

Lemma after_lookup (c : call K V) key self :
  (∀ now value, c ≠ Call_setitem now key value) →
  _cache (after c self) !! key = _cache self !! key ∨
  _cache (after c self) !! key = None.
Proof.
  intros Hc. destruct c as [now key' value|now key'|key'| |now]; cbn [after].
  - assert (key' ≠ key) as Hne by (intros ->; by eapply Hc).
    rewrite setitem_unfold.
    pose proof (_remove_invalid_shrinks now self) as (_ & Hm & _).
    specialize (Hm key).
    destruct (_remove_invalid now self) as [[[]|e|] self1]; cbn in *; [|done..].
    by rewrite lookup_insert_ne.
  - rewrite getitem_spec. destruct (_cache self !! key') as [it|]; [|by left].
    destruct (has_expired now (item_date it) self); by left.
  - rewrite delitem_spec. destruct (_cache self !! key'); [|by left].
    cbn. destruct (decide (key' = key)) as [->|Hne].
    + right. apply lookup_delete_eq.
    + left. by apply lookup_delete_ne.
  - rewrite clear_spec. by right.
  - apply _remove_invalid_shrinks.
Qed.

(** ** Agreement of history and dict *)

Lemma hist_exact_ok self : hist_exact self → hist_ok self.
Proof.
  intros [Hnd Hdom]. split; [done|]. intros e He.
  apply elem_of_dom. rewrite Hdom. apply elem_of_list_to_set.
  apply list_elem_of_fmap. eauto.
Qed.

Lemma dom_evict m (es : list (entry K)) :
  dom (evict m es) = dom m ∖ list_to_set (entry_key <$> es).
Proof.
  apply set_eq. intros key.
  rewrite elem_of_difference, !elem_of_dom, lookup_evict, elem_of_list_to_set.
  case_decide as Hin; split.
  - by intros [? [=]].
  - by intros [_ []].
  - done.
  - by intros [].
Qed.

Lemma hist_exact_size self :
  hist_exact self → size (_cache self) = length (__history self).
Proof.
  intros [Hnd Hdom].
  by rewrite <-size_dom, Hdom, size_list_to_set, length_fmap.
Qed.

Lemma swept_hist_exact now self : hist_exact self → hist_exact (swept now self).
Proof.
  destruct self as [m ttl h]. unfold hist_exact, swept.
  cbn [_cache __history __time_to_live].
  set (stale := λ e0 : entry K, has_expired now (entry_date e0) (MkSelf m ttl h)).
  intros [Hnd Hdom].
  rewrite <-(survivors_evicted stale h), fmap_app in Hnd.
  apply NoDup_app in Hnd as (Hnd1 & Hdisj & _).
  split; [done|]. rewrite dom_evict, Hdom.
  rewrite <-(survivors_evicted stale h) at 1.
  rewrite fmap_app, list_to_set_app_L.
  apply set_eq. intros key.
  rewrite elem_of_difference, elem_of_union, !elem_of_list_to_set.
  specialize (Hdisj key). tauto.
Qed.

Lemma survivors_all_fresh (stale : entry K → bool) h :
  Forall (λ e, stale e = false) h → survivors stale h = h.
Proof.
  induction 1 as [|e h He _ IH]; [done|]. cbn [survivors forallb].
  by rewrite He, IH.
Qed.

(** ** Caches built by writes alone *)

Lemma written_hist_exact ttl (cs : list (Z * K * V)) :
  NoDup (key_of <$> cs) → hist_exact (written ttl cs).
Proof.
  intros Hnd. unfold hist_exact, written. cbn [_cache __history].
  rewrite fmap_reverse, <-list_fmap_compose.
  split.
  - by rewrite reverse_Permutation.
  - rewrite dom_list_to_map_L, <-list_fmap_compose.
    apply set_eq. intros key.
    by rewrite !elem_of_list_to_set, elem_of_reverse.
Qed.

Lemma setitem_written ttl (cs : list (Z * K * V)) now key value :
  NoDup (key_of <$> cs) →
  key ∉ key_of <$> cs →
  (∀ c, c ∈ cs → now - time_of c ≤ ttl) →
  __setitem__ now key value (written ttl cs)
  = (Return tt, written ttl (cs ++ [(now, key, value)])).
Proof.
  intros Hnd Hkey Hlive.
  assert (swept now (written ttl cs) = written ttl cs) as Hswept.
  { unfold swept, evicted. rewrite survivors_all_fresh.
    - by rewrite drop_all.
    - apply Forall_forall. intros e. cbn [__history written].
      rewrite elem_of_reverse.
      intros (c & -> & Hc)%list_elem_of_fmap. cbn.
      apply bool_decide_eq_false. specialize (Hlive c Hc). lia. }
  rewrite (setitem_returns _ _ _ _ (written ttl cs)).
  - unfold written. cbn [_cache __history __time_to_live].
    rewrite decide_True.
    + rewrite !fmap_app. cbn [fmap list_fmap]. rewrite reverse_snoc.
      change (item_of (now, key, value))
        with (key, Item value (Some now)).
      rewrite list_to_map_snoc; [done|].
      by rewrite <-list_fmap_compose.
    + apply not_elem_of_list_to_map_1. by rewrite <-list_fmap_compose.
  - rewrite <-Hswept at 2. apply _remove_invalid_swept, hist_exact_ok.
    by apply written_hist_exact.
Qed.

Lemma sets_written ttl (rest : list (Z * K * V)) : ∀ done,
  NoDup (key_of <$> done ++ rest) →
  (∀ c c', c ∈ done ++ rest → c' ∈ done ++ rest →
     time_of c' - time_of c ≤ ttl) →
  sets rest (written ttl done) = (Return tt, written ttl (done ++ rest)).
Proof.
  induction rest as [|[[now key] value] rest IH]; intros done Hnd Hlive.
  - by rewrite app_nil_r.
  - cbn [sets]. unfold_M.
    rewrite setitem_written.
    + rewrite IH; rewrite <-(assoc_L (++)); done.
    + rewrite fmap_app in Hnd. by apply NoDup_app in Hnd as (? & _).
    + rewrite fmap_app in Hnd. apply NoDup_app in Hnd as (_ & Hdisj & _).
      intros Hin. apply (Hdisj key Hin). left.
    + intros c Hc. apply (Hlive c (now, key, value)); set_solver.
Qed.

Lemma filter_all {A} (P : A → Prop) `{!∀ x, Decision (P x)} (l : list A) :
  Forall P l → filter P l = l.
Proof.
  induction 1 as [|x l Hx _ IH]; [done|].
  by rewrite filter_cons, decide_True, IH.
Qed.

(** Among writes in the order of their instants, the sweep leaves the
    history entries of exactly those that have not expired. *)
Lemma survivors_written ttl now (cs : list (Z * K * V)) self :
  __time_to_live self = ttl →
  StronglySorted (λ c c', time_of c ≤ time_of c') cs →
  survivors (λ e, has_expired now (entry_date e) self)
            (reverse (entry_of <$> cs))
  = reverse (entry_of <$> unexpired ttl now cs).
Proof.
  intros Httl. unfold unexpired.
  induction 1 as [|c cs Hsorted IH Hle]; [done|].
  rewrite fmap_cons, reverse_cons, survivors_snoc, filter_cons.
  cbn [entry_of entry_date has_expired]. rewrite Httl.
  case_bool_decide as Hstale.
  - rewrite decide_False by lia. done.
  - rewrite decide_True by lia.
    rewrite fmap_cons, reverse_cons. do 3 f_equal.
    symmetry. apply filter_all.
    eapply Forall_impl; [done|]. cbn. intros c' Hc'. lia.
Qed.

(** ** Writes and reads keep the history in agreement with the dict *)

Lemma swept_hist_ok now self : hist_ok self → hist_ok (swept now self).
Proof.
  destruct self as [m ttl h]. unfold hist_ok, swept.
  cbn [_cache __history __time_to_live].
  set (stale := λ e0 : entry K, has_expired now (entry_date e0) (MkSelf m ttl h)).
  intros [Hnd Hin].
  pose proof (survivors_evicted stale h) as Hsplit.
  rewrite <-Hsplit, fmap_app in Hnd.
  apply NoDup_app in Hnd as (Hnd1 & Hdisj & _).
  split; [done|]. intros e He. rewrite lookup_evict, decide_False.
  - apply Hin. rewrite <-Hsplit. apply elem_of_app. by left.
  - apply Hdisj, list_elem_of_fmap. eauto.
Qed.

Lemma setitem_hist_ok now key value self :
  hist_ok self →
  ∃ self', __setitem__ now key value self = (Return tt, self') ∧ hist_ok self'.
Proof.
  intros Hok. pose proof (swept_hist_ok now self Hok) as [Hnd Hin].
  rewrite (setitem_returns _ _ _ _ (swept now self))
    by by apply _remove_invalid_swept.
  eexists. split; [done|]. unfold hist_ok. cbn [_cache __history].
  destruct (decide (_cache (swept now self) !! key = None)) as [Hnew|Hold].
  - split.
    + rewrite fmap_cons. cbn [entry_key]. apply NoDup_cons. split; [|done].
      intros (e & -> & He)%list_elem_of_fmap.
      destruct (Hin e He) as [it Hit]. congruence.
    + intros e [-> | He]%elem_of_cons.
      * cbn. rewrite lookup_insert_eq. by eexists.
      * rewrite lookup_insert. case_decide; [by eexists | by apply Hin].
  - split; [done|]. intros e He.
    rewrite lookup_insert. case_decide; [by eexists | by apply Hin].
Qed.

(** A cache that has only been written and read: every write returned. *)
Lemma writes_and_reads_hist_ok ttl (cs : list (call K V)) :
  Forall (λ c, match c with
               | Call_setitem _ _ _ | Call_getitem _ _ => True
               | _ => False
               end) cs →
  hist_ok (after_all cs (MkSelf ∅ ttl [])).
Proof.
  assert (hist_ok (MkSelf (K:=K) (V:=V) ∅ ttl [])) as Hstart.
  { split; cbn; [constructor|]. intros e He. by apply elem_of_nil in He. }
  revert Hstart. generalize (MkSelf (K:=K) (V:=V) ∅ ttl []).
  unfold after_all. intros self Hok Hcs. revert self Hok.
  induction Hcs as [|c cs Hc _ IH]; intros self Hok; [done|].
  cbn [foldl]. apply IH.
  destruct c as [now key value|now key| | |]; try done; cbn [after].
  - destruct (setitem_hist_ok now key value self Hok) as (self' & -> & Hok').
    done.
  - rewrite getitem_spec. destruct (_cache self !! key) as [it|]; [|done].
    by destruct (has_expired now (item_date it) self).
Qed.

(** ** Two writes on a new cache *)

Lemma sets_app (cs1 cs2 : list (Z * K * V)) self :
  sets (cs1 ++ cs2) self
  = match sets cs1 self with
    | (Return _, self') => sets cs2 self'
    | (Raise err, self') => (Raise err, self')
    | (OutOfFuel, self') => (OutOfFuel, self')
    end.
Proof.
  revert self. induction cs1 as [|[[now key] value] cs1 IH]; intros self.
  - done.
  - cbn [sets app]. unfold_M.
    destruct (__setitem__ now key value self) as [[[]|err|] self']; [|done..].
    apply IH.
Qed.

Lemma first_write ttl (a : K) (va : V) t0 :
  __setitem__ t0 a va (MkSelf ∅ ttl [])
  = (Return tt, MkSelf {[a := Item va (Some t0)]} ttl [Entry a (Some t0)]).
Proof.
  rewrite (setitem_returns _ _ _ _ (MkSelf ∅ ttl [])) by done.
  cbn [_cache __time_to_live __history].
  by rewrite decide_True by apply lookup_empty.
Qed.

(** The second write comes while the first has not expired. *)
Lemma two_writes ttl (a b : K) (va vb : V) t0 t1 :
  a ≠ b → t1 - t0 ≤ ttl →
  sets [(t0, a, va); (t1, b, vb)] (MkSelf ∅ ttl [])
  = (Return tt,
     MkSelf (<[b := Item vb (Some t1)]> {[a := Item va (Some t0)]})
            ttl [Entry b (Some t1); Entry a (Some t0)]).
Proof.
  intros Hab H10. cbn [sets]. unfold_M. rewrite first_write.
  rewrite (setitem_returns _ _ _ _
             (MkSelf {[a := Item va (Some t0)]} ttl [Entry a (Some t0)])).
  2:{ apply (remove_invalid_break t1 _ ttl [] (Entry a (Some t0))).
      cbn. apply bool_decide_eq_false. lia. }
  cbn [_cache __time_to_live __history].
  by rewrite decide_True by (by apply lookup_singleton_ne).
Qed.

(** The second write comes when the first has expired: its sweep pops the
    first key. *)
Lemma two_writes_late ttl (a b : K) (va vb : V) t0 t1 :
  a ≠ b → t1 - t0 > ttl →
  sets [(t0, a, va); (t1, b, vb)] (MkSelf ∅ ttl [])
  = (Return tt,
     MkSelf (<[b := Item vb (Some t1)]> (delete a {[a := Item va (Some t0)]}))
            ttl [Entry b (Some t1)]).
Proof.
  intros Hab H10. cbn [sets]. unfold_M. rewrite first_write.
  rewrite (setitem_returns _ _ _ _
             (MkSelf (delete a {[a := Item va (Some t0)]}) ttl [])).
  2:{ rewrite (remove_invalid_pop t1 _ ttl [] (Entry a (Some t0))
                 (Item va (Some t0))); [done | |].
      - cbn. apply bool_decide_eq_true. lia.
      - apply lookup_singleton_eq. }
  cbn [_cache __time_to_live __history].
  rewrite decide_True; [done|].
  by rewrite delete_singleton_eq.
Qed.

(** * The claims *)

(** C1: a write followed by a read of the same key, no later than the time
    to live after the write, gives back the written value itself.  The
    write returns on every cache whose history agrees with its dict, and
    whenever the write returns, the read returns the value and leaves the
    cache as it is. *)
Theorem C1_set_get_round_trip now now' key value self :
  now' - now ≤ __time_to_live self →
  (hist_ok self →
     ∃ self', __setitem__ now key value self = (Return tt, self')) ∧
  (∀ self', __setitem__ now key value self = (Return tt, self') →
     __getitem__ now' key self' = (Return value, self')).
Proof.
  intros Hlive. split.
  - intros Hok.
    destruct (setitem_hist_ok now key value self Hok) as (self' & Hset & _).
    eauto.
  - intros self' (self1 & Hsweep & ->)%setitem_inv.
    pose proof (_remove_invalid_shrinks now self) as (Httl & _).
    rewrite Hsweep in Httl. cbn [snd] in Httl.
    rewrite getitem_spec. cbn [_cache]. rewrite lookup_insert_eq.
    cbn. rewrite bool_decide_eq_false_2; [done|]. lia.
Qed.

(** C2: a read raises [KeyError(key)] exactly when the key is not stored or
    the timestamp stored with it has expired (and otherwise returns the
    stored value).  So after a write of [key] at [written], once the clock
    is more than the time to live past [written], a read of [key] raises
    [KeyError(key)] after any calls that do not write [key] again. *)
Theorem C2_get_not_found key self :
  (∀ now,
     __getitem__ now key self = (Raise (KeyError key), self) ↔
     _cache self !! key = None ∨
     ∃ it, _cache self !! key = Some it ∧
       has_expired now (item_date it) self = true) ∧
  (∀ now it,
     _cache self !! key = Some it →
     has_expired now (item_date it) self = false →
     __getitem__ now key self = (Return (item_value it), self)) ∧
  (∀ written value self1 (cs : list (call K V)) now,
     __setitem__ written key value self = (Return tt, self1) →
     Forall (λ c, ∀ t v, c ≠ Call_setitem t key v) cs →
     now - written > __time_to_live self →
     __getitem__ now key (after_all cs self1)
     = (Raise (KeyError key), after_all cs self1)).
Proof.
  split_and!.
  - intros now. rewrite getitem_spec.
    destruct (_cache self !! key) as [it|]; [|split; eauto].
    destruct (has_expired now (item_date it) self) eqn:Hexp; split; eauto.
    + done.
    + intros [[=] | (it' & [= <-] & Hexp')]. congruence.
  - intros now it Hm Hexp. by rewrite getitem_spec, Hm, Hexp.
  - intros written value self1 cs now (self0 & Hsweep & ->)%setitem_inv Hcs Hlate.
    pose proof (_remove_invalid_shrinks written self) as (Httl & _).
    rewrite Hsweep in Httl. cbn [snd] in Httl.
    match goal with |- context [after_all cs ?s] => set (start := s) end.
    assert (__time_to_live start = __time_to_live self ∧
            (_cache start !! key = Some (Item value (Some written)) ∨
             _cache start !! key = None)) as Hinv.
    { subst start. cbn. split; [done|]. left. apply lookup_insert_eq. }
    clearbody start. unfold after_all.
    revert start Hinv.
    induction Hcs as [|c cs Hc Hcs IH]; intros start [Hstart_ttl Hstart].
    + cbn [foldl]. rewrite getitem_spec.
      destruct Hstart as [-> | ->]; [|done].
      cbn. rewrite bool_decide_eq_true_2; [done|]. lia.
    + cbn [foldl]. apply IH. split.
      * by rewrite after_time_to_live.
      * destruct (after_lookup c key start Hc) as [-> | ->]; [done | by right].
Qed.

(** C3: a write of a key that is stored when the sweep is over stores the
    new value and instant and leaves the history as the sweep left it: no
    entry is added, moved or given a new date.  So the place of a key in the
    eviction order is that of its first write.  Write A, write B, write A
    again: the third write finds A stored exactly when A's first write has
    expired neither at the second write nor at the third.  The history is
    then still B (at its instant) before A (at the instant of its first
    write), and a sweep at an instant when A's first write has expired and
    B's write has not pops A from the dict and keeps B, even when A's second
    write has not expired and a read just before the sweep still returned
    A's value. *)
Theorem C3_refresh_keeps_history_slot :
  (∀ now key value self self1 it,
     _remove_invalid now self = (Return tt, self1) →
     _cache self1 !! key = Some it →
     __setitem__ now key value self
     = (Return tt,
        MkSelf (<[key := Item value (Some now)]> (_cache self1))
               (__time_to_live self1) (__history self1))) ∧
  (∀ ttl (a b : K) (va vb : V) t0 t1 t2,
     a ≠ b →
     (∃ self2 self2' it,
        sets [(t0, a, va); (t1, b, vb)] (MkSelf ∅ ttl []) = (Return tt, self2) ∧
        _remove_invalid t2 self2 = (Return tt, self2') ∧
        _cache self2' !! a = Some it) ↔
     t1 - t0 ≤ ttl ∧ t2 - t0 ≤ ttl) ∧
  (∀ ttl (a b : K) (va vb va' : V) t0 t1 t2 t3,
     a ≠ b → t1 - t0 ≤ ttl → t2 - t0 ≤ ttl →
     t3 - t0 > ttl → t3 - t1 ≤ ttl →
     let refreshed :=
       MkSelf (<[a := Item va' (Some t2)]>
                 (<[b := Item vb (Some t1)]> {[a := Item va (Some t0)]}))
              ttl [Entry b (Some t1); Entry a (Some t0)] in
     sets [(t0, a, va); (t1, b, vb); (t2, a, va')] (MkSelf ∅ ttl [])
     = (Return tt, refreshed) ∧
     (t3 - t2 ≤ ttl → __getitem__ t3 a refreshed = (Return va', refreshed)) ∧
     _remove_invalid t3 refreshed
     = (Return tt, MkSelf {[b := Item vb (Some t1)]} ttl [Entry b (Some t1)])).
Proof.
  split_and!.
  - intros now key value self self1 it Hsweep Hold.
    rewrite (setitem_returns _ _ _ _ self1) by done.
    rewrite decide_False; [done | congruence].
  - intros ttl a b va vb t0 t1 t2 Hab. split.
    + intros (self2 & self2' & it & Hsets & Hsweep & Hit).
      destruct (decide (t1 - t0 ≤ ttl)) as [H10|H10].
      * split; [done|]. destruct (decide (t2 - t0 ≤ ttl)) as [|H20]; [done|].
        rewrite two_writes in Hsets by done. injection Hsets as <-.
        rewrite (remove_invalid_pop t2 _ ttl [Entry b (Some t1)]
                   (Entry a (Some t0)) (Item va (Some t0))) in Hsweep.
        -- cbn [entry_key] in Hsweep.
           pose proof (_remove_invalid_shrinks t2
                         (MkSelf (delete a (<[b := Item vb (Some t1)]>
                                              {[a := Item va (Some t0)]}))
                                 ttl [Entry b (Some t1)])) as (_ & Hm & _).
           rewrite Hsweep in Hm. cbn [snd _cache] in Hm.
           destruct (Hm a) as [Ha | Ha]; rewrite Ha in Hit; [|done].
           by rewrite lookup_delete_eq in Hit.
        -- cbn. apply bool_decide_eq_true. lia.
        -- cbn. by rewrite lookup_insert_ne, lookup_singleton_eq.
      * rewrite two_writes_late in Hsets by (done || lia).
        injection Hsets as <-.
        pose proof (_remove_invalid_shrinks t2
                      (MkSelf (<[b := Item vb (Some t1)]>
                                 (delete a {[a := Item va (Some t0)]}))
                              ttl [Entry b (Some t1)])) as (_ & Hm & _).
        rewrite Hsweep in Hm. cbn [snd _cache] in Hm.
        destruct (Hm a) as [Ha | Ha]; rewrite Ha in Hit; [|done].
        by rewrite lookup_insert_ne, lookup_delete_eq in Hit.
    + intros [H10 H20]. eexists _, _, (Item va (Some t0)).
      split_and!.
      * by apply two_writes.
      * apply (remove_invalid_break t2 _ ttl [Entry b (Some t1)]
                 (Entry a (Some t0))).
        cbn. apply bool_decide_eq_false. lia.
      * cbn. by rewrite lookup_insert_ne, lookup_singleton_eq.
  - intros ttl a b va vb va' t0 t1 t2 t3 Hab H10 H20 H30 H31 refreshed.
    split_and!.
    + change [(t0, a, va); (t1, b, vb); (t2, a, va')]
        with ([(t0, a, va); (t1, b, vb)] ++ [(t2, a, va')]).
      rewrite sets_app, two_writes by done. cbn [sets]. unfold_M.
      rewrite (setitem_returns _ _ _ _
                 (MkSelf (<[b := Item vb (Some t1)]> {[a := Item va (Some t0)]})
                         ttl [Entry b (Some t1); Entry a (Some t0)])).
      2:{ apply (remove_invalid_break t2 _ ttl [Entry b (Some t1)]
                   (Entry a (Some t0))).
          cbn. apply bool_decide_eq_false. lia. }
      cbn [_cache __time_to_live __history].
      rewrite decide_False; [done|].
      rewrite lookup_insert_ne, lookup_singleton_eq by done. done.
    + intros H32. rewrite getitem_spec. subst refreshed. cbn [_cache].
      rewrite lookup_insert_eq. cbn.
      rewrite bool_decide_eq_false_2; [done | lia].
    + subst refreshed.
      rewrite (remove_invalid_pop t3 _ ttl [Entry b (Some t1)]
                 (Entry a (Some t0)) (Item va' (Some t2))).
      * cbn [entry_key].
        rewrite delete_insert_eq, delete_insert_ne, delete_singleton_eq by done.
        apply (remove_invalid_break t3 _ ttl [] (Entry b (Some t1))).
        cbn. apply bool_decide_eq_false. lia.
      * cbn. apply bool_decide_eq_true. lia.
      * apply lookup_insert_eq.
Qed.

(** C4: every write starts with the sweep.  The sweep looks at the oldest
    history entry, the last one: on an empty history it does nothing; if
    the oldest entry has not expired it stops at once and changes nothing,
    whatever the entries before it are; if it has expired, the sweep pops
    its key from the dict and the entry from the history and goes on in the
    same way.  On a cache whose history agrees with its dict the result is
    [swept]: the history without its longest expired tail, the dict without
    the keys of that tail. *)
Theorem C4_sweep_behaviour now self :
  (∀ key value,
     __setitem__ now key value self
     = match _remove_invalid now self with
       | (Return _, self1) =>
           (Return tt,
            MkSelf (<[key := Item value (Some now)]> (_cache self1))
                   (__time_to_live self1)
                   (if decide (_cache self1 !! key = None)
                    then Entry key (Some now) :: __history self1
                    else __history self1))
       | (Raise err, self1) => (Raise err, self1)
       | (OutOfFuel, self1) => (OutOfFuel, self1)
       end) ∧
  (__history self = [] → _remove_invalid now self = (Return tt, self)) ∧
  (∀ h oldest,
     __history self = h ++ [oldest] →
     has_expired now (entry_date oldest) self = false →
     _remove_invalid now self = (Return tt, self)) ∧
  (∀ h oldest it,
     __history self = h ++ [oldest] →
     has_expired now (entry_date oldest) self = true →
     _cache self !! entry_key oldest = Some it →
     _remove_invalid now self
     = _remove_invalid now
         (MkSelf (delete (entry_key oldest) (_cache self))
                 (__time_to_live self) h)) ∧
  (hist_ok self → _remove_invalid now self = (Return tt, swept now self)).
Proof.
  split_and!.
  - intros key value. apply setitem_unfold.
  - destruct self as [m ttl h]. cbn. by intros ->.
  - destruct self as [m ttl h0]. cbn [__history]. intros h oldest -> Hexp.
    by apply remove_invalid_break.
  - destruct self as [m ttl h0]. cbn [__history _cache __time_to_live].
    intros h oldest it -> Hexp Hm.
    by apply (remove_invalid_pop _ _ _ _ _ it).
  - apply _remove_invalid_swept.
Qed.

(** C5, where the code departs from it: a write does not always store.
    [del cache[key]] and [clear()] leave the history as it is, so the entry
    of a removed key stays; once that entry has expired, the sweep of the
    next write pops a key the dict no longer has, [dict.pop] raises
    [KeyError], and the write raises it in turn, before anything is stored
    and with the cache left as it was, so that every later write fails in
    the same way. *)
Theorem C5_set_raises_after_delete_or_clear
    ttl t0 t1 (k k' : K) (v v' : V) :
  t1 - t0 > ttl →
  let one := MkSelf {[k := Item v (Some t0)]} ttl [Entry k (Some t0)] in
  let broken := MkSelf ∅ ttl [Entry k (Some t0)] in
  __setitem__ t0 k v (MkSelf ∅ ttl []) = (Return tt, one) ∧
  __delitem__ k one = (Return tt, broken) ∧
  clear one = (Return tt, broken) ∧
  __setitem__ t1 k' v' broken = (Raise (KeyError k), broken) ∧
  _cache broken !! k' = None.
Proof.
  intros Hlate one broken. split_and!.
  - apply first_write.
  - rewrite delitem_spec. subst one. cbn [_cache].
    rewrite lookup_singleton_eq. unfold set_cache. cbn.
    by rewrite delete_singleton_eq.
  - by rewrite clear_spec.
  - rewrite setitem_unfold. subst broken.
    rewrite (remove_invalid_raise t1 ∅ ttl [] (Entry k (Some t0))); [done| |].
    + cbn. apply bool_decide_eq_true. lia.
    + apply lookup_empty.
  - apply lookup_empty.
Qed.

(** C6, as the code has it: [del cache[key]] raises [KeyError(key)] when
    the key is not stored, and leaves the cache as it was; when the key is
    stored it returns, and the key is no longer stored.  The history is
    not touched either way. *)
Theorem C6_delitem key self :
  (_cache self !! key = None →
     __delitem__ key self = (Raise (KeyError key), self)) ∧
  (∀ it, _cache self !! key = Some it →
     ∃ self', __delitem__ key self = (Return tt, self') ∧
       _cache self' = delete key (_cache self) ∧
       _cache self' !! key = None ∧
       __history self' = __history self).
Proof.
  rewrite delitem_spec. split.
  - by intros ->.
  - intros it ->. eexists. split; [done|]. cbn.
    split_and!; [done | apply lookup_delete_eq | done].
Qed.

(** C7: [len(cache)] is the number of stored pairs, expired or not.  After
    writes of distinct keys, any two of them no further apart than the time
    to live, it is the number of writes, and stays so while some of them
    expire: a read of an expired key raises, the pair is still counted.
    When the writes came in the order of their instants, one more write of
    a new key sweeps the expired ones out, and the size is then the number
    of unexpired writes plus one. *)
Theorem C7_size_bookkeeping ttl (cs : list (Z * K * V)) :
  NoDup (key_of <$> cs) →
  (∀ c c', c ∈ cs → c' ∈ cs → time_of c' - time_of c ≤ ttl) →
  (∀ self, __len__ self = size (_cache self)) ∧
  sets cs (MkSelf ∅ ttl []) = (Return tt, written ttl cs) ∧
  __len__ (written ttl cs) = length cs ∧
  (∀ now c, c ∈ cs → now - time_of c > ttl →
     __getitem__ now (key_of c) (written ttl cs)
     = (Raise (KeyError (key_of c)), written ttl cs)) ∧
  (StronglySorted (λ c c', time_of c ≤ time_of c') cs →
   ∀ now key value, key ∉ key_of <$> cs →
     ∃ self', __setitem__ now key value (written ttl cs) = (Return tt, self') ∧
       __len__ self' = S (length (unexpired ttl now cs))).
Proof.
  intros Hnd Hlive.
  pose proof (written_hist_exact ttl cs Hnd) as Hexact.
  split_and!.
  - done.
  - by apply (sets_written ttl cs []).
  - unfold __len__. rewrite hist_exact_size by done. cbn.
    by rewrite length_reverse, length_fmap.
  - intros now c Hc Hlate. rewrite getitem_spec. cbn [_cache written].
    rewrite (elem_of_list_to_map_1 _ (key_of c) (Item c.2 (Some (time_of c)))).
    + cbn. rewrite bool_decide_eq_true_2; [done | lia].
    + by rewrite <-list_fmap_compose.
    + apply list_elem_of_fmap. by exists c.
  - intros Hsorted now key value Hkey.
    pose proof (swept_hist_exact now _ Hexact) as Hexact'.
    rewrite (setitem_returns _ _ _ _ (swept now (written ttl cs)))
      by apply _remove_invalid_swept, hist_exact_ok, Hexact.
    eexists. split; [done|]. unfold __len__. cbn [_cache].
    assert (_cache (swept now (written ttl cs)) !! key = None) as Hnew.
    { unfold swept. cbn [_cache]. rewrite lookup_evict. case_decide; [done|].
      unfold written. cbn [_cache].
      apply not_elem_of_list_to_map_1. by rewrite <-list_fmap_compose. }
    rewrite map_size_insert_None by done. f_equal.
    rewrite hist_exact_size by done. cbn [__history swept written].
    rewrite (survivors_written ttl) by done.
    by rewrite length_reverse, length_fmap.
Qed.

(** C8: [has_expired] answers true exactly when the timestamp is missing or
    the clock is more than the time to live past it; so a missing timestamp
    is always expired, and an entry whose age is exactly the time to live is
    not. *)
Theorem C8_has_expired_iff now (date_time : option Z) self :
  (has_expired now date_time self = true ↔
     date_time = None ∨
     ∃ d, date_time = Some d ∧ now - d > __time_to_live self) ∧
  has_expired now None self = true ∧
  (∀ d, now - d = __time_to_live self → has_expired now (Some d) self = false).
Proof.
  split_and!.
  - destruct date_time as [d|]; cbn.
    + rewrite bool_decide_eq_true. split.
      * intros Hd. right. eauto.
      * intros [[=] | (d' & [= <-] & Hd)]. done.
    + split; [by left | done].
  - done.
  - intros d Hd. cbn. apply bool_decide_eq_false. lia.
Qed.

(** C9: the constructor raises [ValueError] exactly when its argument is
    not a [System.TimeSpan]; given one, it stores it and starts with an
    empty dict and an empty history; and no call changes the stored time to
    live afterwards. *)
Theorem C9_constructor (time_to_live : PyObject) :
  ((∃ err, __init__ (K:=K) (V:=V) time_to_live = inl err) ↔
     isinstance_TimeSpan time_to_live = false) ∧
  (∀ err, __init__ (K:=K) (V:=V) time_to_live = inl err →
     err = ValueError "Expected System.TimeSpan") ∧
  (∀ ticks, time_to_live = PyTimeSpan ticks →
     __init__ (K:=K) (V:=V) time_to_live = inr (MkSelf ∅ ticks [])) ∧
  (∀ self (cs : list (call K V)),
     __time_to_live (after_all cs self) = __time_to_live self).
Proof.
  split_and!.
  - destruct time_to_live; cbn; split; try done; eauto.
    by intros [err ?].
  - intros err. destruct time_to_live; cbn; congruence.
  - by intros ticks ->.
  - intros self cs. revert self. unfold after_all.
    induction cs as [|c cs IH]; intros self; [done|]. cbn [foldl].
    by rewrite IH, after_time_to_live.
Qed.

(** C10: the sweep terminates.  A pass through the loop body after which
    the loop goes on has popped exactly one history entry, so
    [len(self.__history)] passes are always enough: with that much fuel or
    more the loop does not run out, and its answer is that of
    [_remove_invalid], which returns or raises but never runs out. *)
Theorem C10_sweep_terminates now self :
  (∀ self', sweep_body now self = (Return true, self') →
     S (length (__history self')) = length (__history self)) ∧
  (∀ fuel, (length (__history self) ≤ fuel)%nat →
     fst (sweep_loop fuel now self) ≠ OutOfFuel ∧
     sweep_loop fuel now self = _remove_invalid now self) ∧
  fst (_remove_invalid now self) ≠ OutOfFuel.
Proof.
  destruct self as [m ttl h]. split_and!.
  - intros self'. destruct (snoc_cases h) as [-> | (h' & e & ->)].
    + by cbn.
    + destruct (sweep_body_cases now m ttl h' e) as [-> | [-> | ->]];
        intros [= <-]. cbn. rewrite length_app. cbn. lia.
  - intros fuel Hfuel. rewrite _remove_invalid_loop.
    by apply sweep_loop_fuel.
  - rewrite _remove_invalid_loop. by apply sweep_loop_fuel.
Qed.

End Properties.

(** * Instances on the caches of [SqlWrapper] *)

Lemma hist_ok_empty_cache : hist_ok empty_cache.
Proof.
  split; cbn; [constructor|]. intros e He. by apply elem_of_nil in He.
Qed.

Lemma hist_ok_q1_cache : hist_ok q1_cache.
Proof.
  split; cbn.
  - apply NoDup_singleton.
  - intros e ->%list_elem_of_singleton. by eexists.
Qed.

(** The constructor, on the time span of [first_cache] and on an [int]. *)
Lemma first_cache_is_empty_cache : first_cache = inr empty_cache.
Proof. reflexivity. Qed.

Example constructor_rejects_int :
  __init__ (K:=string) (V:=string) (PyInt 120)
  = inl (ValueError "Expected System.TimeSpan").
Proof. reflexivity. Qed.

(** The scenario of the caches: written at 0, read at 90 s and at 150 s,
    then a second key written at 150 s. *)
Example scenario_read_at_90 :
  __getitem__ (seconds 90) "q1" q1_cache = (Return "rowA", q1_cache).
Proof. by vm_compute. Qed.

Example scenario_read_at_150 :
  __getitem__ (seconds 150) "q1" q1_cache = (Raise (KeyError "q1"), q1_cache).
Proof. by vm_compute. Qed.

Example scenario_write_at_150 :
  __setitem__ (seconds 150) "q2" "rowB" q1_cache
  = (Return tt,
     MkSelf {["q2" := Item "rowB" (Some (seconds 150))]} two_minutes
            [Entry "q2" (Some (seconds 150))]).
Proof. by vm_compute. Qed.

(** A second write of q1 that comes after its first write has expired is
    not a write of a stored key: its own sweep pops q1, and q1 enters the
    history again, at the head and with the new instant. *)
Example late_rewrite_is_a_new_entry :
  sets [(seconds 0, "q1", "rowA"); (seconds 100, "q2", "rowB");
        (seconds 130, "q1", "rowA2")] empty_cache
  = (Return tt,
     MkSelf (<["q1" := Item "rowA2" (Some (seconds 130))]>
               {["q2" := Item "rowB" (Some (seconds 100))]})
            two_minutes
            [Entry "q1" (Some (seconds 130)); Entry "q2" (Some (seconds 100))]).
Proof. by vm_compute. Qed.

(** With no fuel the loop cannot pop the expired entry: the fuel counts. *)
Example sweep_loop_no_fuel :
  sweep_loop 0 (seconds 150) q1_cache = (OutOfFuel, q1_cache).
Proof. by vm_compute. Qed.

(** C1 on [first_cache]: written at 0, read 90 s later. *)
Lemma C1_set_get_round_trip_witness :
  seconds 90 - 0 ≤ __time_to_live empty_cache ∧
  __setitem__ 0 "q1" "rowA" empty_cache = (Return tt, q1_cache) ∧
  __getitem__ (seconds 90) "q1" q1_cache = (Return "rowA", q1_cache).
Proof.
  assert (seconds 90 - 0 ≤ __time_to_live empty_cache) as Hlive
    by (vm_compute; discriminate).
  assert (__setitem__ 0 "q1" "rowA" empty_cache = (Return tt, q1_cache))
    as Hset by (by vm_compute).
  split_and!; [done..|].
  exact (proj2 (C1_set_get_round_trip 0 (seconds 90) "q1" "rowA" empty_cache
                  Hlive) q1_cache Hset).
Defined.

(** C2 on [first_cache]: written at 0; a read and a write of another key
    follow; the read at 150 s raises. *)
Lemma C2_get_not_found_witness :
  let cs := [Call_getitem (seconds 90) "q1";
             Call_setitem (seconds 100) "q2" "rowB"] in
  __getitem__ (seconds 150) "q1" (after_all cs q1_cache)
  = (Raise (KeyError "q1"), after_all cs q1_cache).
Proof.
  intros cs.
  apply (proj2 (proj2 (C2_get_not_found "q1" empty_cache)) 0 "rowA").
  - by vm_compute.
  - repeat constructor; intros t v Heq; inversion Heq.
  - by vm_compute.
Defined.

(** C3 on [first_cache]: q1 at 0, q2 at 30 s, q1 again at 100 s; the sweep
    at 125 s removes q1 and keeps q2. *)
Lemma C3_refresh_keeps_history_slot_witness :
  _remove_invalid (seconds 125)
    (MkSelf (<["q1" := Item "rowA2" (Some (seconds 100))]>
               (<["q2" := Item "rowB" (Some (seconds 30))]>
                  {["q1" := Item "rowA" (Some (seconds 0))]}))
            two_minutes
            [Entry "q2" (Some (seconds 30)); Entry "q1" (Some (seconds 0))])
  = (Return tt,
     MkSelf {["q2" := Item "rowB" (Some (seconds 30))]} two_minutes
            [Entry "q2" (Some (seconds 30))]).
Proof.
  refine (proj2 (proj2 (proj2 (proj2 C3_refresh_keeps_history_slot)
            two_minutes "q1" "q2" "rowA" "rowB" "rowA2"
            (seconds 0) (seconds 30) (seconds 100) (seconds 125)
            _ _ _ _ _))); [done | by vm_compute..].
Defined.

(** C4 on [first_cache]: at 90 s the only entry has not expired and the
    sweep changes nothing. *)
Lemma C4_sweep_behaviour_witness :
  _remove_invalid (seconds 90) q1_cache = (Return tt, q1_cache).
Proof.
  refine (proj1 (proj2 (proj2 (C4_sweep_behaviour (seconds 90) q1_cache)))
            [] (Entry "q1" (Some 0)) _ _); by vm_compute.
Defined.

(** C5 on [first_cache]: q1 written at 0 and deleted, q2 written at 150 s. *)
Lemma C5_set_raises_after_delete_or_clear_witness :
  seconds 150 - 0 > two_minutes ∧
  __delitem__ "q1" q1_cache = (Return tt, q1_deleted) ∧
  __setitem__ (seconds 150) "q2" "rowB" q1_deleted
  = (Raise (KeyError "q1"), q1_deleted).
Proof.
  assert (seconds 150 - 0 > two_minutes) as Hlate by (by vm_compute).
  pose proof (C5_set_raises_after_delete_or_clear
                two_minutes 0 (seconds 150) "q1" "q2" "rowA" "rowB" Hlate)
    as (_ & Hdel & _ & Hset & _).
  by split_and!.
Defined.

(** C6 as stated fails: deleting a key that is not stored raises. *)
Lemma C6_delete_absent_raises :
  _cache empty_cache !! "q1" = None ∧
  __delitem__ "q1" empty_cache = (Raise (KeyError "q1"), empty_cache).
Proof. split; by vm_compute. Qed.

(** C6, as the code has it, on [first_cache]. *)
Lemma C6_delitem_witness :
  __delitem__ "q2" q1_cache = (Raise (KeyError "q2"), q1_cache) ∧
  ∃ self', __delitem__ "q1" q1_cache = (Return tt, self') ∧
    _cache self' !! "q1" = None.
Proof.
  split.
  - refine (proj1 (C6_delitem "q2" q1_cache) _). by vm_compute.
  - destruct (proj2 (C6_delitem "q1" q1_cache) (Item "rowA" (Some 0)))
      as (self' & Hdel & _ & Hgone & _); [by vm_compute|].
    by exists self'.
Defined.

Lemma three_writes_distinct : NoDup (key_of <$> three_writes).
Proof. apply (bool_decide_unpack _). by vm_compute. Qed.

Lemma three_writes_close c c' :
  c ∈ three_writes → c' ∈ three_writes →
  time_of c' - time_of c ≤ two_minutes.
Proof.
  unfold three_writes. rewrite !elem_of_cons, !elem_of_nil.
  intros [-> | [-> | [-> | []]]] [-> | [-> | [-> | []]]];
    vm_compute; discriminate.
Qed.

Lemma three_writes_sorted :
  StronglySorted (λ c c', time_of c ≤ time_of c') three_writes.
Proof. repeat constructor; vm_compute; discriminate. Qed.

(** C7 on [first_cache]: three writes half a minute apart make size 3; at
    130 s the first has expired, and a fourth write makes the size 2 + 1. *)
Lemma C7_size_bookkeeping_witness :
  __len__ (written two_minutes three_writes) = 3%nat ∧
  ∃ self', __setitem__ (seconds 130) "q4" "rowD"
             (written two_minutes three_writes) = (Return tt, self') ∧
    __len__ self' = 3%nat.
Proof.
  pose proof (C7_size_bookkeeping two_minutes three_writes
                three_writes_distinct three_writes_close)
    as (_ & _ & Hlen & _ & Hnext).
  split; [exact Hlen|].
  apply (Hnext three_writes_sorted).
  apply (bool_decide_unpack _). by vm_compute.
Defined.

(** C8 on [first_cache]: an entry exactly two minutes old has not expired. *)
Lemma C8_has_expired_iff_witness :
  has_expired two_minutes (Some 0) empty_cache = false.
Proof.
  refine (proj2 (proj2 (C8_has_expired_iff two_minutes None empty_cache)) 0 _).
  by vm_compute.
Defined.

(** C9 on the argument of [first_cache]. *)
Lemma C9_constructor_witness :
  __init__ (K:=string) (V:=string) (TimeSpan 0 2 0) = inr empty_cache.
Proof.
  refine (proj1 (proj2 (proj2 (C9_constructor (TimeSpan 0 2 0)))) two_minutes _).
  by vm_compute.
Defined.

(** C10 on [first_cache]: one history entry, one pass. *)
Lemma C10_sweep_terminates_witness :
  (length (__history q1_cache) ≤ 1)%nat ∧
  sweep_loop 1 (seconds 150) q1_cache = _remove_invalid (seconds 150) q1_cache.
Proof.
  assert (length (__history q1_cache) ≤ 1)%nat as Hfuel by (cbn; lia).
  split; [done|].
  exact (proj2 (proj1 (proj2 (C10_sweep_terminates (seconds 150) q1_cache))
                  1%nat Hfuel)).
Defined.

(** * Further properties of the cache *)

Section MoreProperties.
Context `{Countable K} {V : Type}.
Implicit Types (self : Self K V) (key : K) (value : V) (now : Z)
  (h : list (entry K)) (m : gmap K (item V)) (e : entry K).

Lemma hist_ok_new ttl : hist_ok (MkSelf (K:=K) (V:=V) ∅ ttl []).
Proof.
  split; cbn; [constructor|]. intros e He. by apply elem_of_nil in He.
Qed.

Lemma after_all_snoc (cs : list (call K V)) c self :
  after_all (cs ++ [c]) self = after c (after_all cs self).
Proof. unfold after_all. by rewrite foldl_snoc. Qed.

Lemma last_write_snoc key (cs : list (call K V)) c :
  last_write key (cs ++ [c])
  = match c with
    | Call_setitem now k v =>
        if decide (k = key) then Some (now, v) else last_write key cs
    | _ => last_write key cs
    end.
Proof. unfold last_write. by rewrite foldl_snoc. Qed.

Lemma after_getitem now key self : after (Call_getitem now key) self = self.
Proof.
  cbn [after]. rewrite getitem_spec.
  destruct (_cache self !! key) as [it|]; [|done].
  by destruct (has_expired now (item_date it) self).
Qed.

Lemma swept_time_to_live now self :
  __time_to_live (swept now self) = __time_to_live self.
Proof. done. Qed.

Lemma swept_lookup_Some now self key it :
  _cache (swept now self) !! key = Some it → _cache self !! key = Some it.
Proof.
  unfold swept. cbn [_cache]. rewrite lookup_evict. by case_decide.
Qed.

(** The object a returning write leaves, on a cache whose history agrees
    with its dict. *)
Lemma setitem_swept now key value self :
  hist_ok self →
  __setitem__ now key value self
  = (Return tt,
     MkSelf (<[key := Item value (Some now)]> (_cache (swept now self)))
            (__time_to_live self)
            (if decide (_cache (swept now self) !! key = None)
             then Entry key (Some now) :: __history (swept now self)
             else __history (swept now self))).
Proof.
  intros Hok.
  by rewrite (setitem_returns _ _ _ _ (swept now self))
    by by apply _remove_invalid_swept.
Qed.

Lemma write_or_read_hist_ok (c : call K V) self :
  is_write_or_read c = true → hist_ok self → hist_ok (after c self).
Proof.
  intros Hc Hok. destruct c as [t k v|t k| | |]; try done.
  - cbn [after].
    destruct (setitem_hist_ok t k v self Hok) as (self' & Hset & Hok').
    by rewrite Hset.
  - by rewrite after_getitem.
Qed.

Lemma writes_reads_hist_ok ttl (cs : list (call K V)) :
  Forall (λ c, is_write_or_read c = true) cs →
  hist_ok (after_all cs (MkSelf ∅ ttl [])).
Proof.
  induction cs as [|c cs IH] using rev_ind; intros Hcs.
  - apply hist_ok_new.
  - apply Forall_app in Hcs as [Hcs Hc]. apply Forall_inv in Hc.
    rewrite after_all_snoc. apply write_or_read_hist_ok; [done|]. by apply IH.
Qed.

(** X1 ([Cache.clear]).  [clear()] always returns.  It leaves the dict empty
    and the size 0, whatever was stored, and touches neither the history
    nor the time to live.  After it every read raises [KeyError], and a
    second [clear()] changes nothing. *)
Theorem clear_empties_cache self :
  ∃ self',
    clear self = (Return tt, self') ∧
    _cache self' = ∅ ∧ __len__ self' = 0%nat ∧
    __history self' = __history self ∧
    __time_to_live self' = __time_to_live self ∧
    (∀ now key, __getitem__ now key self' = (Raise (KeyError key), self')) ∧
    clear self' = (Return tt, self').
Proof.
  rewrite clear_spec. eexists. split; [done|]. cbn.
  split_and!; done.
Qed.

(** X2 ([DatabaseCache.__setitem__]).  On a cache that has only been
    written and read since it was made, a write never raises: it returns,
    the key is then stored with the written value and the instant of the
    write, and the history still agrees with the dict. *)
Theorem writes_and_reads_never_raise ttl (cs : list (call K V)) :
  Forall (λ c, is_write_or_read c = true) cs →
  ∀ now key value,
    ∃ self', __setitem__ now key value (after_all cs (MkSelf ∅ ttl []))
             = (Return tt, self') ∧
      _cache self' !! key = Some (Item value (Some now)) ∧
      hist_ok self'.
Proof.
  intros Hcs now key value.
  pose proof (writes_reads_hist_ok ttl cs Hcs) as Hok.
  destruct (setitem_hist_ok now key value _ Hok) as (self' & Hset & Hok').
  exists self'. split_and!; [done| |done].
  rewrite setitem_swept in Hset by done. injection Hset as <-.
  cbn. apply lookup_insert_eq.
Qed.

(** X3 ([DatabaseCache.__getitem__]).  On a cache that has only been
    written and read since it was made, a read that returns gives the value
    of the last write of that key, and that write is no older than the time
    to live: never the value of another key, of an earlier write, or of an
    expired one. *)
Theorem read_returns_last_write ttl (cs : list (call K V)) now key value self' :
  Forall (λ c, is_write_or_read c = true) cs →
  __getitem__ now key (after_all cs (MkSelf ∅ ttl [])) = (Return value, self') →
  ∃ written, last_write key cs = Some (written, value) ∧ now - written ≤ ttl.
Proof.
  intros Hcs.
  assert (__time_to_live (after_all cs (MkSelf (K:=K) (V:=V) ∅ ttl [])) = ttl ∧
          ∀ k it, _cache (after_all cs (MkSelf ∅ ttl [])) !! k = Some it →
            ∃ t v, it = Item v (Some t) ∧ last_write k cs = Some (t, v))
    as [Httl Hinv].
  { induction cs as [|c cs IH] using rev_ind.
    - split; [done|]. intros k it. cbn. by rewrite lookup_empty.
    - apply Forall_app in Hcs as [Hcs Hc]. apply Forall_inv in Hc.
      destruct (IH Hcs) as [Httl Hinv]. clear IH.
      pose proof (writes_reads_hist_ok ttl cs Hcs) as Hok.
      rewrite after_all_snoc.
      destruct c as [t k v|t k| | |]; try done.
      + cbn [after]. rewrite setitem_swept by done. cbn [snd _cache __time_to_live].
        split; [done|]. intros k' it. rewrite last_write_snoc.
        destruct (decide (k = k')) as [->|Hne].
        * rewrite lookup_insert_eq. intros [= <-]. eauto.
        * rewrite lookup_insert_ne by done.
          intros Hit%swept_lookup_Some. by apply Hinv.
      + rewrite after_getitem. split; [done|]. intros k' it.
        rewrite last_write_snoc. apply Hinv. }
  rewrite getitem_spec.
  destruct (_cache _ !! key) as [it|] eqn:Hit; [|done].
  destruct (Hinv key it Hit) as (t & v & -> & Hlast).
  cbn [item_date item_value]. unfold has_expired. rewrite Httl.
  case_bool_decide as Hexp; [done|]. intros [= <- _].
  exists t. split; [done | lia].
Qed.

Lemma setitem_hist_exact now key value self :
  hist_exact self →
  ∃ self', __setitem__ now key value self = (Return tt, self') ∧
    hist_exact self'.
Proof.
  intros Hex. pose proof (swept_hist_exact now self Hex) as [Hnd Hdom].
  rewrite setitem_swept by by apply hist_exact_ok.
  eexists. split; [done|]. unfold hist_exact. cbn [_cache __history].
  destruct (decide (_cache (swept now self) !! key = None)) as [Hnew|Hold].
  - rewrite fmap_cons. cbn [entry_key]. split.
    + apply NoDup_cons. split; [|done].
      intros Hin. apply not_elem_of_dom in Hnew. apply Hnew.
      rewrite Hdom. by apply elem_of_list_to_set.
    + by rewrite dom_insert_L, Hdom.
  - split; [done|]. rewrite dom_insert_lookup_L; [done|].
    by apply not_eq_None_Some.
Qed.

Lemma hist_exact_new ttl : hist_exact (MkSelf (K:=K) (V:=V) ∅ ttl []).
Proof. split; cbn; [constructor|]. by rewrite dom_empty_L. Qed.

Lemma writes_reads_hist_exact ttl (cs : list (call K V)) :
  Forall (λ c, is_write_or_read c = true) cs →
  hist_exact (after_all cs (MkSelf ∅ ttl [])).
Proof.
  induction cs as [|c cs IH] using rev_ind; intros Hcs.
  - apply hist_exact_new.
  - apply Forall_app in Hcs as [Hcs Hc]. apply Forall_inv in Hc.
    rewrite after_all_snoc. specialize (IH Hcs).
    destruct c as [t k v|t k| | |]; try done.
    + cbn [after].
      destruct (setitem_hist_exact t k v _ IH) as (self' & Hset & Hex).
      by rewrite Hset.
    + by rewrite after_getitem.
Qed.

(** X4 ([DatabaseCache.__setitem__], [Cache.__len__]).  On a cache that has
    only been written and read since it was made, the history records
    exactly the stored keys, once each: [len(cache)] is the length of the
    history, and a key is stored exactly when the history has it. *)
Theorem size_is_history_length ttl (cs : list (call K V)) :
  Forall (λ c, is_write_or_read c = true) cs →
  let self := after_all cs (MkSelf ∅ ttl []) in
  __len__ self = length (__history self) ∧
  NoDup (entry_key <$> __history self) ∧
  ∀ key, is_Some (_cache self !! key) ↔ key ∈ entry_key <$> __history self.
Proof.
  intros Hcs self.
  pose proof (writes_reads_hist_exact ttl cs Hcs) as Hex. fold self in Hex.
  split_and!.
  - by apply hist_exact_size.
  - apply Hex.
  - intros key. destruct Hex as [_ Hdom].
    by rewrite <-elem_of_dom, Hdom, elem_of_list_to_set.
Qed.

(** ** Sweeps of a history in the order of the clock *)

Lemma evicted_all_stale (stale : entry K → bool) h :
  Forall (λ e, stale e = true) (evicted stale h).
Proof.
  induction h as [|e h IH] using rev_ind; [constructor|].
  rewrite evicted_snoc. destruct (stale e) eqn:He; [|constructor].
  apply Forall_app. split; [done|]. by constructor.
Qed.

Lemma has_expired_older now self (d d' : option Z) :
  date_le d' d →
  has_expired now d' self = false → has_expired now d self = false.
Proof.
  destruct d as [t|], d' as [t'|]; cbn; try done.
  intros Hle. rewrite !bool_decide_eq_false. lia.
Qed.

Lemma survivors_newest_first now self h :
  newest_first h →
  Forall (λ e, has_expired now (entry_date e) self = false)
         (survivors (λ e, has_expired now (entry_date e) self) h).
Proof.
  induction h as [|e h IH] using rev_ind; intros Hsorted; [constructor|].
  rewrite survivors_snoc.
  destruct (has_expired now (entry_date e) self) eqn:He.
  - apply IH. by apply StronglySorted_app_1_l in Hsorted.
  - apply Forall_app. split; [|by constructor].
    apply Forall_forall. intros e' He'.
    apply (has_expired_older _ _ _ (entry_date e)); [|done].
    apply (StronglySorted_app_1_elem_of _ h [e] e' e Hsorted He').
    by apply list_elem_of_singleton.
Qed.

Lemma survivors_subseteq (stale : entry K → bool) h e :
  e ∈ survivors stale h → e ∈ h.
Proof.
  intros He. rewrite <-(survivors_evicted stale h). apply elem_of_app. by left.
Qed.

Lemma survivors_sorted (stale : entry K → bool) h :
  newest_first h → newest_first (survivors stale h).
Proof.
  intros Hsorted. rewrite <-(survivors_evicted stale h) in Hsorted.
  by apply StronglySorted_app_1_l in Hsorted.
Qed.

(** X5 ([DatabaseCache.__setitem__], [DatabaseCache._remove_invalid]).  If
    the history agrees with the dict and is in the order of the clock
    (newest first, nothing later than [now]) and the time to live is not
    negative, a write at [now] returns and leaves a history that is again
    in that order and holds no expired entry: the sweep, which stops at the
    first entry that has not expired, has then removed every expired one. *)
Theorem write_leaves_no_expired_entry now key value self :
  hist_ok self →
  newest_first (__history self) →
  Forall (λ e, date_le (entry_date e) (Some now)) (__history self) →
  0 ≤ __time_to_live self →
  ∃ self', __setitem__ now key value self = (Return tt, self') ∧
    newest_first (__history self') ∧
    Forall (λ e, date_le (entry_date e) (Some now)) (__history self') ∧
    Forall (λ e, has_expired now (entry_date e) self' = false) (__history self').
Proof.
  intros Hok Hsorted Hpast Httl. rewrite setitem_swept by done.
  eexists. split; [done|]. cbn [__history].
  set (stale := λ e0 : entry K, has_expired now (entry_date e0) self).
  assert (newest_first (__history (swept now self))) as Hs1
    by by apply survivors_sorted.
  assert (Forall (λ e, date_le (entry_date e) (Some now))
            (__history (swept now self))) as Hs2.
  { apply Forall_forall. intros e He%survivors_subseteq.
    by eapply Forall_forall in Hpast. }
  assert (Forall (λ e, has_expired now (entry_date e) self = false)
            (__history (swept now self))) as Hs3
    by by apply survivors_newest_first.
  assert (∀ e (s' : Self K V), has_expired now (entry_date e) self = false →
            __time_to_live s' = __time_to_live self →
            has_expired now (entry_date e) s' = false) as Hsame.
  { intros e s' He Hs'. by rewrite (has_expired_ttl _ _ s' self). }
  case_decide.
  - split_and!.
    + apply StronglySorted_cons. split; [|done].
      eapply Forall_impl; [exact Hs2|]. done.
    + constructor; [cbn; lia | done].
    + constructor.
      * cbn. apply bool_decide_eq_false. lia.
      * eapply Forall_impl; [exact Hs3|]. intros e He. by apply Hsame.
  - split_and!; [done..|].
    eapply Forall_impl; [exact Hs3|]. intros e He. by apply Hsame.
Qed.

Lemma sweep_loop_pops now : ∀ fuel self,
  let self' := snd (sweep_loop fuel now self) in
  ∃ popped,
    __history self = __history self' ++ popped ∧
    _cache self' = evict (_cache self) popped ∧
    __time_to_live self' = __time_to_live self ∧
    Forall (λ e, has_expired now (entry_date e) self = true) popped.
Proof.
  induction fuel as [|fuel IH]; intros [m ttl h].
  - exists []. cbn. unfold mbind, M_bind, bind, get_self, mret, M_ret, ret, out_of_fuel.
    cbn. case_bool_decide; cbn; by rewrite app_nil_r.
  - destruct (snoc_cases h) as [-> | (h' & e & ->)].
    + rewrite sweep_loop_nil. exists []. cbn. done.
    + destruct (has_expired now (entry_date e) (MkSelf m ttl (h' ++ [e])))
        eqn:Hexp.
      * destruct (m !! entry_key e) as [it|] eqn:Hm.
        -- rewrite (sweep_loop_pop _ _ _ _ _ _ it) by done.
           destruct (IH (MkSelf (delete (entry_key e) m) ttl h'))
             as (popped & Hh & Hm' & Httl & Hst).
           cbn [_cache __history __time_to_live] in *.
           exists (popped ++ [e]). split_and!.
           ++ by rewrite Hh at 1; rewrite <-(assoc_L (++)).
           ++ by rewrite evict_snoc.
           ++ done.
           ++ apply Forall_app. split; [|by constructor].
              eapply Forall_impl; [exact Hst|]. intros e' He'.
              by rewrite (has_expired_ttl _ _ _ (MkSelf (delete (entry_key e) m) ttl h')).
        -- rewrite sweep_loop_raise by done. exists []. cbn.
           by rewrite app_nil_r.
      * rewrite sweep_loop_break by done. exists []. cbn.
        by rewrite app_nil_r.
Qed.

(** X6 ([DatabaseCache._remove_invalid]).  In every state, and whether it
    returns or raises, the sweep removes entries from the end of the
    history only, removes from the dict exactly the keys of the entries it
    popped, pops only entries that have expired, and leaves the time to
    live as it is. *)
Theorem sweep_removes_what_it_pops now self :
  let self' := snd (_remove_invalid now self) in
  ∃ popped,
    __history self = __history self' ++ popped ∧
    _cache self' = evict (_cache self) popped ∧
    __time_to_live self' = __time_to_live self ∧
    Forall (λ e, has_expired now (entry_date e) self = true) popped.
Proof. rewrite _remove_invalid_loop. apply sweep_loop_pops. Qed.

(** ** Caches in step with the clock *)

Lemma in_step_hist_ok clock self : in_step clock self → hist_ok self.
Proof. intros [Hex _]. by apply hist_exact_ok. Qed.

Lemma in_step_new clock ttl : in_step clock (MkSelf (K:=K) (V:=V) ∅ ttl []).
Proof.
  split_and!; cbn.
  - apply hist_exact_new.
  - constructor.
  - constructor.
  - intros e He. by apply elem_of_nil in He.
Qed.

Lemma date_le_trans d t t' : date_le d (Some t) → t ≤ t' → date_le d (Some t').
Proof. destruct d as [x|]; cbn; [lia | done]. Qed.

Lemma in_step_later clock clock' self :
  clock ≤ clock' → in_step clock self → in_step clock' self.
Proof.
  intros Hle (Hex & Hsorted & Hpast & Hdates). split_and!; [done..| |done].
  eapply Forall_impl; [exact Hpast|]. intros e He. by apply (date_le_trans _ clock).
Qed.

(** A stored key has its history entry, with the stored instant. *)
Lemma in_step_entry clock self key it :
  in_step clock self → _cache self !! key = Some it →
  Entry key (item_date it) ∈ __history self ∧
  ∃ t, item_date it = Some t ∧ t ≤ clock.
Proof.
  intros ([_ Hdom] & _ & Hpast & Hdates) Hit.
  assert (key ∈ dom (_cache self)) as Hin by (apply elem_of_dom; eauto).
  rewrite Hdom in Hin. apply elem_of_list_to_set, list_elem_of_fmap in Hin.
  destruct Hin as (e & -> & He).
  destruct (Hdates e He) as [v Hv]. rewrite Hit in Hv. injection Hv as ->.
  cbn [item_date]. split; [by destruct e|].
  eapply Forall_forall in Hpast; [|exact He].
  destruct (entry_date e) as [t|]; [|done]. eauto.
Qed.

Lemma evicted_subseteq (stale : entry K → bool) h e :
  e ∈ evicted stale h → e ∈ h.
Proof.
  intros He. rewrite <-(survivors_evicted stale h). apply elem_of_app. by right.
Qed.

(** In step with the clock, a sweep removes exactly the expired keys. *)
Lemma in_step_swept_lookup clock now self key :
  in_step clock self →
  _cache (swept now self) !! key
  = match _cache self !! key with
    | Some it => if has_expired now (item_date it) self then None else Some it
    | None => None
    end.
Proof.
  intros Hstep. pose proof Hstep as (Hex & Hsorted & Hpast & Hdates).
  unfold swept. cbn [_cache]. rewrite lookup_evict.
  set (stale := λ e0 : entry K, has_expired now (entry_date e0) self).
  case_decide as Hin.
  - apply list_elem_of_fmap in Hin as (e & -> & He).
    pose proof (evicted_all_stale stale (__history self)) as Hstale.
    eapply Forall_forall in Hstale; [|exact He]. cbn in Hstale.
    apply evicted_subseteq in He. destruct (Hdates e He) as [v ->].
    cbn [item_date]. unfold stale in Hstale. by rewrite Hstale.
  - destruct (_cache self !! key) as [it|] eqn:Hit; [|done].
    destruct (in_step_entry _ _ _ _ Hstep Hit) as [He _].
    rewrite <-(survivors_evicted stale (__history self)) in He.
    apply elem_of_app in He as [He|He].
    + pose proof (survivors_newest_first now self _ Hsorted) as Hfresh.
      eapply Forall_forall in Hfresh; [|exact He]. cbn in Hfresh.
      by rewrite Hfresh.
    + destruct Hin. apply list_elem_of_fmap. by exists (Entry key (item_date it)).
Qed.

(** A write of a key that cannot be read keeps the cache in step. *)
Lemma in_step_setitem clock now key value self :
  in_step clock self → clock ≤ now →
  (∀ it, _cache self !! key = Some it →
         has_expired now (item_date it) self = true) →
  ∃ self', __setitem__ now key value self = (Return tt, self') ∧
    in_step now self' ∧
    __time_to_live self' = __time_to_live self ∧
    ∀ k, _cache self' !! k
         = if decide (k = key) then Some (Item value (Some now))
           else match _cache self !! k with
                | Some it =>
                    if has_expired now (item_date it) self then None else Some it
                | None => None
                end.
Proof.
  intros Hstep Hle Hmiss. pose proof Hstep as (Hex & Hsorted & Hpast & Hdates).
  assert (_cache (swept now self) !! key = None) as Hnew.
  { rewrite (in_step_swept_lookup clock) by done.
    destruct (_cache self !! key) as [it|] eqn:Hit; [|done].
    by rewrite (Hmiss it). }
  destruct (setitem_hist_exact now key value self Hex) as (self' & Hset & Hex').
  exists self'. split; [done|].
  rewrite setitem_swept in Hset by by apply hist_exact_ok.
  rewrite decide_True in Hset by done. injection Hset as <-.
  set (stale := λ e0 : entry K, has_expired now (entry_date e0) self).
  assert (Forall (λ e, date_le (entry_date e) (Some now))
            (__history (swept now self))) as Hpast'.
  { apply Forall_forall. intros e He%survivors_subseteq.
    eapply Forall_forall in Hpast; [|exact He].
    by apply (date_le_trans _ clock). }
  split_and!.
  - split_and!; [done| | |]; cbn [__history _cache].
    + apply StronglySorted_cons. split; [|by apply survivors_sorted].
      eapply Forall_impl; [exact Hpast'|]. done.
    + constructor; [cbn; lia | done].
    + intros e [->|He]%elem_of_cons.
      * exists value. cbn. apply lookup_insert_eq.
      * pose proof (survivors_newest_first now self _ Hsorted) as Hfresh.
        eapply Forall_forall in Hfresh; [|exact He]. cbn in Hfresh.
        pose proof (survivors_subseteq _ _ _ He) as He'.
        destruct (Hdates e He') as [v Hv]. exists v.
        assert (_cache (swept now self) !! entry_key e
                = Some (Item v (entry_date e))) as Hs.
        { rewrite (in_step_swept_lookup clock) by done. rewrite Hv.
          cbn [item_date]. by rewrite Hfresh. }
        rewrite lookup_insert_ne; [done|]. intros Heq. congruence.
  - done.
  - intros k. cbn [_cache]. case_decide as Hk.
    + subst k. apply lookup_insert_eq.
    + rewrite lookup_insert_ne by done. by apply (in_step_swept_lookup clock).
Qed.

End MoreProperties.

(** * Properties of the matcher *)

Lemma append_cons c (s t : string) : String c s +:+ t = String c (s +:+ t).
Proof. done. Qed.

Lemma append_nil_l (t : string) : "" +:+ t = t.
Proof. done. Qed.

Lemma append_nil_r (s : string) : s +:+ "" = s.
Proof.
  induction s as [|c s IH]; [done|]. by rewrite append_cons, IH.
Qed.

Lemma append_assoc (a b c : string) : a +:+ (b +:+ c) = (a +:+ b) +:+ c.
Proof.
  induction a as [|x a IH]; [done|]. by rewrite !append_cons, IH.
Qed.

Lemma substring_all (s t : string) :
  String.substring 0 (String.length s) (s +:+ t) = s.
Proof.
  induction s as [|c s IH]; [by destruct t|].
  rewrite append_cons. simpl. by rewrite IH.
Qed.

Lemma length_append (s t : string) :
  String.length (s +:+ t) = (String.length s + String.length t)%nat.
Proof.
  induction s as [|c s IH]; [done|]. rewrite append_cons. simpl.
  by rewrite IH.
Qed.

Lemma consumed_app (a b : string) : consumed (a +:+ b) b = a.
Proof.
  unfold consumed. rewrite length_append.
  replace (String.length a + String.length b - String.length b)%nat
    with (String.length a) by lia.
  apply substring_all.
Qed.

Lemma consumed_all (s : string) : consumed s "" = s.
Proof. rewrite <-(append_nil_r s) at 1. apply consumed_app. Qed.

(** ** Runs *)

Lemma span_append p s : fst (span p s) +:+ snd (span p s) = s.
Proof.
  induction s as [|c s IH]; [done|]. simpl.
  destruct (p c); [|done]. destruct (span p s) as [run rest]. simpl in *.
  by rewrite append_cons, IH.
Qed.

Lemma span_run p s : all_chars p (fst (span p s)) = true.
Proof.
  induction s as [|c s IH]; [done|]. simpl.
  destruct (p c) eqn:Hc; [|done]. destruct (span p s) as [run rest].
  simpl in *. by rewrite Hc, IH.
Qed.

Lemma span_rest p s : head_is p (snd (span p s)) = false.
Proof.
  induction s as [|c s IH]; [done|]. simpl.
  destruct (p c) eqn:Hc; [|done]. by destruct (span p s) as [run rest].
Qed.

Lemma span_of_run p run rest :
  all_chars p run = true → head_is p rest = false →
  span p (run +:+ rest) = (run, rest).
Proof.
  intros Hrun Hrest. induction run as [|c run IH].
  - rewrite append_nil_l. destruct rest as [|c rest]; [done|].
    simpl in *. by rewrite Hrest.
  - simpl in Hrun. apply andb_prop in Hrun as [Hc Hrun].
    rewrite append_cons. simpl. by rewrite Hc, IH.
Qed.

Lemma span_no_run p s : head_is p s = false → span p s = (EmptyString, s).
Proof. destruct s as [|c s]; simpl; [done|]. by intros ->. Qed.

Lemma span_all s : span (λ _, true) s = (s, EmptyString).
Proof. induction s as [|c s IH]; simpl; [done | by rewrite IH]. Qed.

(** The longest run is the match when the rest of the pattern matches
    after it, *)
Lemma star_max {R} p s (k : string → option R) x :
  k (snd (span p s)) = Some x → star p s k = Some x.
Proof.
  induction s as [|c s IH]; simpl; [done|].
  destruct (p c); [|done]. destruct (span p s) as [run rest]. simpl in *.
  intros Hk. by rewrite IH.
Qed.

(** and the only candidate when the rest of the pattern cannot start
    with a character of the class. *)
Lemma star_only_max {R} p s (k : string → option R) :
  (∀ c s', p c = true → k (String c s') = None) →
  star p s k = k (snd (span p s)).
Proof.
  intros Hk. induction s as [|c s IH]; simpl; [done|].
  destruct (p c) eqn:Hc; [|done]. rewrite IH.
  destruct (span p s) as [run rest]. simpl.
  destruct (k rest); [done|]. by apply Hk.
Qed.

(** ** Words *)

Lemma exec_lit_ci {R} w s g (k : string → gmap nat string → option R) :
  exec (lit_ci w) s g k
  = match split_ci w s with
    | Some (_, rest) => k rest g
    | None => None
    end.
Proof.
  revert s. induction w as [|c w IH]; intros s; simpl; [done|].
  destruct s as [|x s]; [done|].
  destruct (Ascii.eqb (lower x) (lower c)); [|done].
  rewrite IH. by destruct (split_ci w s) as [[a rest]|].
Qed.

Lemma split_ci_append w s a rest :
  split_ci w s = Some (a, rest) →
  s = a +:+ rest ∧ lower_string a = lower_string w.
Proof.
  revert s a. induction w as [|c w IH]; intros s a; simpl.
  - by intros [= <- <-].
  - destruct s as [|x s]; [done|].
    destruct (Ascii.eqb (lower x) (lower c)) eqn:Hx; [|done].
    destruct (split_ci w s) as [[a' rest']|] eqn:Hs; [|done].
    intros [= <- <-]. destruct (IH _ _ Hs) as [-> Hlow].
    rewrite append_cons. simpl.
    apply Ascii.eqb_eq in Hx. by rewrite Hx, Hlow.
Qed.

Lemma split_ci_of_word w a rest :
  lower_string a = lower_string w → split_ci w (a +:+ rest) = Some (a, rest).
Proof.
  revert a. induction w as [|c w IH]; intros a; simpl.
  - by destruct a.
  - destruct a as [|x a]; [done|]. simpl. intros [= Hx Ha].
    rewrite ?append_cons. simpl. rewrite Hx, Ascii.eqb_refl. by rewrite IH.
Qed.

(** ** The pattern of [add_top_1] *)

Lemma space_not_digit c : is_space c = true → is_digit c = false.
Proof.
  unfold is_space, is_digit. generalize (N_of_ascii c). intros n.
  rewrite orb_true_iff, !andb_true_iff, andb_false_iff.
  rewrite N.eqb_eq, !N.leb_le, !N.leb_gt. lia.
Qed.

Lemma lower_space c : is_space c = true → lower c = c.
Proof.
  unfold is_space, lower. generalize (N_of_ascii c). intros n.
  rewrite orb_true_iff, !andb_true_iff, N.eqb_eq, !N.leb_le. intros Hn.
  destruct ((65 <=? n) && (n <=? 90))%N eqn:Hup; [|done].
  apply andb_true_iff in Hup. rewrite !N.leb_le in Hup. lia.
Qed.

Lemma space_not_letter c (x : ascii) :
  is_space c = true → is_space (lower x) = false →
  Ascii.eqb (lower c) (lower x) = false.
Proof.
  intros Hc Hx. rewrite (lower_space c Hc).
  destruct (Ascii.eqb c (lower x)) eqn:Heq; [|done].
  apply Ascii.eqb_eq in Heq. congruence.
Qed.

Lemma split_ci_space w c s :
  head_is (λ x, negb (is_space (lower x))) w = true →
  is_space c = true → split_ci w (String c s) = None.
Proof.
  destruct w as [|x w]; [done|]. simpl. intros Hx Hc.
  apply negb_true_iff in Hx. by rewrite space_not_letter.
Qed.

Local Abbreviation kfinal := (λ (_ : string) (g : gmap nat string), Some g).

Lemma exec_group2 s g :
  exec (Group 2 (Star (λ _, true))) s g kfinal = Some (<[2%nat := s]> g).
Proof.
  simpl. apply star_max. rewrite span_all. simpl. by rewrite consumed_all.
Qed.

Lemma exec_top_part s g :
  exec top_part s g (λ s' g', exec (Group 2 (Star (λ _, true))) s' g' kfinal)
  = match split_ci "TOP" s with
    | Some (_, s1) =>
        match snd (span is_space s1) with
        | String c s2 =>
            if is_digit c then Some (<[2%nat := snd (span is_digit s2)]> g)
            else None
        | EmptyString => None
        end
    | None => None
    end.
Proof.
  unfold top_part. cbn [exec]. rewrite exec_lit_ci.
  destruct (split_ci "TOP" s) as [[a s1]|]; [|done].
  rewrite star_only_max.
  - destruct (snd (span is_space s1)) as [|c s2]; [done|].
    destruct (is_digit c); [|done].
    apply star_max. apply (exec_group2 _ g).
  - intros c s' Hc. by rewrite space_not_digit.
Qed.

Lemma exec_tail s g :
  exec (Seq (Opt top_part) (Group 2 (Star (λ _, true)))) s g kfinal
  = Some (<[2%nat := skip_top s]> g).
Proof.
  cbn [exec]. rewrite exec_top_part. unfold skip_top.
  destruct (split_ci "TOP" s) as [[a s1]|]; [|apply exec_group2].
  destruct (snd (span is_space s1)) as [|c s2]; [apply exec_group2|].
  destruct (is_digit c); [done | apply exec_group2].
Qed.

Lemma exec_keyword {R} s g (k : string → gmap nat string → option R) :
  (∀ s' g', is_Some (k s' g')) →
  exec (Opt (Alt (lit_ci "ALL") (Seq (lit_ci "DISTINCT") (Star is_space))))
    s g k
  = k (skip_keyword s) g.
Proof.
  intros Hk. cbn [exec]. rewrite !exec_lit_ci. unfold skip_keyword.
  destruct (split_ci "ALL" s) as [[a rest]|].
  - by destruct (Hk rest g) as [x ->].
  - destruct (split_ci "DISTINCT" s) as [[a rest]|].
    + destruct (Hk (snd (span is_space rest)) g) as [x Hx].
      rewrite (star_max _ _ _ x) by done. by rewrite Hx.
    + by destruct (k s g).
Qed.

Lemma exec_select_part {R} s g (k : string → gmap nat string → option R) :
  (∀ s' g', is_Some (k s' g')) →
  exec select_part s g k
  = match split_ci "SELECT" s with
    | Some (_, s1) => k (skip_keyword (snd (span is_space s1))) g
    | None => None
    end.
Proof.
  intros Hk. unfold select_part.
  change (exec (Seq ?r1 ?r2) s g k)
    with (exec r1 s g (λ s' g', exec r2 s' g' k)).
  rewrite exec_lit_ci.
  destruct (split_ci "SELECT" s) as [[a s1]|]; [|done].
  destruct (Hk (skip_keyword (snd (span is_space s1))) g) as [x Hx].
  rewrite Hx.
  change (exec (Seq (Star ?p) ?r2) s1 g k)
    with (star p s1 (λ s', exec r2 s' g k)).
  apply star_max. by rewrite (exec_keyword _ _ _ Hk).
Qed.

Lemma exec_top_core s g :
  exec top_core s g kfinal
  = match split_ci "SELECT" s with
    | Some (_, s1) =>
        let s3 := skip_keyword (snd (span is_space s1)) in
        Some (<[2%nat := skip_top s3]> (<[1%nat := consumed s s3]> g))
    | None => None
    end.
Proof.
  unfold top_core.
  change (exec (Seq (Group 1 select_part) ?B) s g kfinal)
    with (exec select_part s g
            (λ s' g', exec B s' (<[1%nat := consumed s s']> g') kfinal)).
  rewrite exec_select_part.
  - destruct (split_ci "SELECT" s) as [[a s1]|]; [|done].
    cbn zeta. apply exec_tail.
  - intros s' g'. rewrite exec_tail. by eexists.
Qed.

Lemma exec_top_core_space c s g :
  is_space c = true → exec top_core (String c s) g kfinal = None.
Proof.
  intros Hc. rewrite exec_top_core.
  by rewrite (split_ci_space "SELECT" c s).
Qed.

Lemma exec_top_pattern s :
  exec top_pattern s ∅ kfinal
  = exec top_core (snd (span is_space s)) ∅ kfinal.
Proof.
  unfold top_pattern. cbn [exec]. rewrite star_only_max
    by (intros c s' Hc; by apply exec_top_core_space).
  destruct (exec top_core (snd (span is_space s)) ∅ kfinal) eqn:Hcore; [done|].
  destruct s as [|c s]; [done|]. destruct (is_space c) eqn:Hc.
  - by apply exec_top_core_space.
  - by rewrite span_no_run in Hcore.
Qed.

Lemma search_first_select s :
  search top_pattern s
  = match first_select s with
    | Some t => exec top_core t ∅ kfinal
    | None => None
    end.
Proof.
  induction s as [|c s IH].
  - done.
  - cbn [search first_select]. rewrite exec_top_pattern.
    destruct (split_ci "SELECT" (String c s)) as [[a s1]|] eqn:Hsel.
    + destruct (is_space c) eqn:Hc.
      { by rewrite (split_ci_space "SELECT" c s) in Hsel. }
      rewrite span_no_run by (simpl; done).
      cbn [snd]. rewrite exec_top_core, Hsel. done.
    + destruct (is_space c) eqn:Hc.
      * (* the match at this place is the match at the next one *)
        assert (snd (span is_space (String c s)) = snd (span is_space s)) as ->.
        { simpl. rewrite Hc. by destruct (span is_space s). }
        rewrite <-IH. destruct s as [|c' s]; [done|].
        cbn [search]. rewrite exec_top_pattern.
        by destruct (exec top_core _ ∅ kfinal).
      * rewrite span_no_run by (simpl; done). cbn [snd].
        rewrite exec_top_core, Hsel. apply IH.
Qed.

(** ** [add_top_1] as a parse *)

Lemma add_top_1_parse query :
  add_top_1 query
  = match first_select query with
    | Some t =>
        match split_ci "SELECT" t with
        | Some (_, s1) =>
            let s3 := skip_keyword (snd (span is_space s1)) in
            consumed t s3 +:+ "TOP 1 " +:+ skip_top s3
        | None => query
        end
    | None => query
    end.
Proof.
  unfold add_top_1. rewrite search_first_select.
  destruct (first_select query) as [t|] eqn:Ht; [|done].
  rewrite exec_top_core.
  destruct (split_ci "SELECT" t) as [[a s1]|]; [|done].
  cbn zeta. unfold group.
  by rewrite lookup_insert_ne, !lookup_insert_eq by done.
Qed.

Lemma first_select_here t :
  is_Some (split_ci "SELECT" t) → first_select t = Some t.
Proof.
  intros [x Hx]. destruct t as [|c t]; [done|].
  cbn [first_select]. by rewrite Hx.
Qed.

Lemma first_select_Some s t :
  first_select s = Some t →
  ∃ pre, s = pre +:+ t ∧ is_Some (split_ci "SELECT" t).
Proof.
  induction s as [|c s IH].
  - simpl. done.
  - cbn [first_select].
    destruct (split_ci "SELECT" (String c s)) as [x|] eqn:Hsel.
    + intros [= <-]. exists EmptyString. split; [done|]. rewrite Hsel. by eexists.
    + intros (pre & -> & Ht)%IH. exists (String c pre). by rewrite append_cons.
Qed.

Lemma first_select_append pre t :
  first_select t = Some t → is_Some (first_select (pre +:+ t)).
Proof.
  intros Ht. induction pre as [|c pre IH].
  - rewrite append_nil_l, Ht. by eexists.
  - rewrite append_cons. cbn [first_select].
    by destruct (split_ci "SELECT" (String c (pre +:+ t))).
Qed.

Lemma lower_SELECT : lower_string "SELECT" = "select".
Proof. reflexivity. Qed.

(** [first_select] finds nothing exactly when the word occurs nowhere. *)
Lemma first_select_None s :
  first_select s = None ↔
  ∀ pre w post, s = pre +:+ w +:+ post → lower_string w ≠ "select".
Proof.
  split.
  - intros Hnone pre w post -> Hw.
    assert (first_select (w +:+ post) = Some (w +:+ post)) as Ht.
    { apply first_select_here. rewrite (split_ci_of_word "SELECT" w post).
      - by eexists.
      - by rewrite lower_SELECT. }
    destruct (first_select_append pre _ Ht) as [x Hx]. congruence.
  - intros Hno. destruct (first_select s) as [t|] eqn:Ht; [|done].
    apply first_select_Some in Ht as (pre & -> & [[w post] Hw]).
    apply split_ci_append in Hw as [-> Hlow].
    destruct (Hno pre w post); [done|]. by rewrite Hlow, lower_SELECT.
Qed.

(** The parse of a query that starts with SELECT and white space. *)
Lemma add_top_1_select sel ws tail :
  lower_string sel = "select" →
  all_chars is_space ws = true →
  head_is is_space tail = false →
  add_top_1 (sel +:+ ws +:+ tail)
  = consumed (sel +:+ ws +:+ tail) (skip_keyword tail)
    +:+ "TOP 1 " +:+ skip_top (skip_keyword tail).
Proof.
  intros Hsel Hws Htail. rewrite add_top_1_parse.
  assert (split_ci "SELECT" (sel +:+ ws +:+ tail) = Some (sel, ws +:+ tail))
    as Hsplit by (apply split_ci_of_word; by rewrite lower_SELECT).
  rewrite first_select_here by (rewrite Hsplit; by eexists).
  rewrite Hsplit. cbn zeta. by rewrite span_of_run.
Qed.

Lemma consumed_app3 (a b c : string) : consumed (a +:+ b +:+ c) c = a +:+ b.
Proof. rewrite append_assoc. apply consumed_app. Qed.

Lemma consumed_app4 (a b c d : string) :
  consumed (a +:+ b +:+ c +:+ d) d = a +:+ b +:+ c.
Proof. rewrite !append_assoc. apply consumed_app. Qed.

Lemma split_ci_None_lower w a rest x a' c w' :
  lower_string a = String x a' → lower_string w = String c w' → x ≠ c →
  split_ci w (a +:+ rest) = None.
Proof.
  destruct a as [|y a], w as [|z w]; simpl; try done.
  intros Ha Hw Hne. inversion Ha as [[Hy Ha']]. inversion Hw as [[Hz Hw']].
  destruct (Ascii.eqb (lower y) (lower z)) eqn:Heq; [|done].
  apply Ascii.eqb_eq in Heq. congruence.
Qed.

Lemma is_space_lower c : is_space (lower c) = false → is_space c = false.
Proof.
  intros Hc. destruct (is_space c) eqn:Hs; [|done].
  rewrite (lower_space c Hs) in Hc. congruence.
Qed.

Lemma head_not_space a rest x a' :
  lower_string a = String x a' → is_space x = false →
  head_is is_space (a +:+ rest) = false.
Proof.
  destruct a as [|y a]; simpl; [done|]. intros Ha Hx.
  inversion Ha as [[Hy Ha']]. subst x. by apply is_space_lower.
Qed.

Lemma digit_not_space c : is_digit c = true → is_space c = false.
Proof.
  intros Hd. destruct (is_space c) eqn:Hs; [|done].
  apply space_not_digit in Hs. congruence.
Qed.

Lemma split_ci_long w pre q :
  (String.length w ≤ String.length pre)%nat →
  split_ci w (pre +:+ q)
  = match split_ci w pre with
    | Some (a, r) => Some (a, r +:+ q)
    | None => None
    end.
Proof.
  revert pre. induction w as [|c w IH]; intros pre; simpl.
  - done.
  - destruct pre as [|x pre]; simpl; [lia|]. intros Hlen.
    rewrite ?append_cons. simpl.
    destruct (Ascii.eqb (lower x) (lower c)); [|done].
    rewrite IH by lia. by destruct (split_ci w pre) as [[a r]|].
Qed.

Lemma split_select_head x q :
  is_Some (split_ci "SELECT" (String x q)) → lower x = "s"%char.
Proof.
  simpl. destruct (Ascii.eqb (lower x) (lower "S")) eqn:Hx.
  - intros _. by apply Ascii.eqb_eq in Hx.
  - by intros [? [=]].
Qed.

Lemma split_select_overlap pre q :
  pre ≠ EmptyString → (String.length pre < 6)%nat →
  is_Some (split_ci "SELECT" q) →
  split_ci "SELECT" (pre +:+ q) = None.
Proof.
  intros Hpre Hlen Hq. destruct q as [|x q]; [by destruct Hq as [? [=]]|].
  apply split_select_head in Hq.
  destruct pre as [|c1 [|c2 [|c3 [|c4 [|c5 [|c6 pre]]]]]];
    simpl in Hlen; try lia; try done; clear Hpre Hlen;
    rewrite ?append_cons, ?append_nil_l; simpl; rewrite ?Hq;
    repeat match goal with
           | |- context [if Ascii.eqb (lower ?c) ?d then _ else _] =>
               destruct (Ascii.eqb (lower c) d); [|done]
           end; done.
Qed.

Lemma first_select_prefix pre q :
  first_select pre = None → is_Some (split_ci "SELECT" q) →
  first_select (pre +:+ q) = Some q.
Proof.
  intros Hpre Hq. induction pre as [|c pre IH].
  - rewrite append_nil_l. by apply first_select_here.
  - cbn [first_select] in Hpre.
    destruct (split_ci "SELECT" (String c pre)) as [?|] eqn:Hsel; [done|].
    rewrite append_cons. cbn [first_select]. rewrite <-append_cons.
    assert (split_ci "SELECT" (String c pre +:+ q) = None) as ->.
    { destruct (decide (String.length (String c pre) < 6)%nat).
      - by apply split_select_overlap.
      - rewrite split_ci_long by (simpl in *; lia). by rewrite Hsel. }
    by apply IH.
Qed.

(** * Properties of [add_top_1] *)

(** X7 ([add_top_1]).  A query in which the word SELECT occurs nowhere, in
    any letter case, is returned as it is. *)
Theorem add_top_1_without_select query :
  (∀ pre w post, query = pre +:+ w +:+ post → lower_string w ≠ "select") →
  add_top_1 query = query.
Proof.
  intros Hno%first_select_None. by rewrite add_top_1_parse, Hno.
Qed.

(** X8 ([add_top_1]).  A query that is SELECT (in any letter case), white
    space, and a rest that does not start with white space, ALL, DISTINCT
    or TOP, gets TOP 1 and a space between the white space and the rest;
    nothing else changes. *)
Theorem add_top_1_inserts_top sel ws rest :
  lower_string sel = "select" →
  all_chars is_space ws = true →
  head_is is_space rest = false →
  split_ci "ALL" rest = None →
  split_ci "DISTINCT" rest = None →
  split_ci "TOP" rest = None →
  add_top_1 (sel +:+ ws +:+ rest) = sel +:+ ws +:+ "TOP 1 " +:+ rest.
Proof.
  intros Hsel Hws Hrest Hall Hdist Htop.
  rewrite add_top_1_select by done.
  unfold skip_keyword, skip_top. rewrite Hall, Hdist, Htop.
  by rewrite consumed_app3, !append_assoc.
Qed.

(** X9 ([add_top_1]).  After SELECT DISTINCT (in any letter case) TOP 1 goes
    behind DISTINCT and the white space that follows it. *)
Theorem add_top_1_after_distinct sel ws dist ws' rest :
  lower_string sel = "select" →
  all_chars is_space ws = true →
  lower_string dist = "distinct" →
  all_chars is_space ws' = true →
  head_is is_space rest = false →
  split_ci "TOP" rest = None →
  add_top_1 (sel +:+ ws +:+ dist +:+ ws' +:+ rest)
  = sel +:+ ws +:+ dist +:+ ws' +:+ "TOP 1 " +:+ rest.
Proof.
  intros Hsel Hws Hdist Hws' Hrest Htop.
  rewrite add_top_1_select; [|done..|] .
  - unfold skip_keyword.
    rewrite (split_ci_None_lower "ALL" dist _ "d" "istinct" "a" "ll")
      by (done || by rewrite Hdist).
    rewrite (split_ci_of_word "DISTINCT" dist) by by rewrite Hdist.
    rewrite span_of_run by done. cbn [snd].
    unfold skip_top. rewrite Htop.
    rewrite (append_assoc dist ws' rest), consumed_app4.
    by rewrite !append_assoc.
  - by apply (head_not_space dist _ "d" "istinct").
Qed.

(** X10 ([add_top_1]).  A TOP with a number that follows SELECT is replaced:
    TOP, its white space and its digits go, and TOP 1 and a space come in
    their place, before whatever followed the digits (so the white space
    that followed the old number is kept after the new space). *)
Theorem add_top_1_replaces_top sel ws top ws' d ds rest :
  lower_string sel = "select" →
  all_chars is_space ws = true →
  lower_string top = "top" →
  all_chars is_space ws' = true →
  is_digit d = true → all_chars is_digit ds = true →
  head_is is_digit rest = false →
  add_top_1 (sel +:+ ws +:+ top +:+ ws' +:+ String d ds +:+ rest)
  = sel +:+ ws +:+ "TOP 1 " +:+ rest.
Proof.
  intros Hsel Hws Htop Hws' Hd Hds Hrest.
  rewrite add_top_1_select; [|done..|].
  - unfold skip_keyword.
    rewrite (split_ci_None_lower "ALL" top _ "t" "op" "a" "ll")
      by (done || by rewrite Htop).
    rewrite (split_ci_None_lower "DISTINCT" top _ "t" "op" "d" "istinct")
      by (done || by rewrite Htop).
    unfold skip_top.
    rewrite (split_ci_of_word "TOP" top) by by rewrite Htop.
    rewrite span_of_run; [|done|].
    + cbn [snd]. rewrite append_cons, Hd.
      rewrite span_of_run by done. cbn [snd].
      rewrite <-append_cons.
      by rewrite consumed_app3, !append_assoc.
    + rewrite append_cons. simpl. by apply digit_not_space.
  - by apply (head_not_space top _ "t" "op").
Qed.

(** X11 ([add_top_1]).  After SELECT ALL the pattern takes no white space
    into group 1, so TOP 1 is put directly behind ALL, with no space
    between them, and the white space that followed ALL comes after it. *)
Theorem add_top_1_after_all sel ws all rest :
  lower_string sel = "select" →
  all_chars is_space ws = true →
  lower_string all = "all" →
  split_ci "TOP" rest = None →
  add_top_1 (sel +:+ ws +:+ all +:+ rest)
  = sel +:+ ws +:+ all +:+ "TOP 1 " +:+ rest.
Proof.
  intros Hsel Hws Hall Htop.
  rewrite add_top_1_select; [|done..|].
  - unfold skip_keyword.
    rewrite (split_ci_of_word "ALL" all) by by rewrite Hall.
    unfold skip_top. rewrite Htop.
    by rewrite consumed_app4, !append_assoc.
  - by apply (head_not_space all _ "a" "ll").
Qed.

(** X12 ([add_top_1]).  The result is built from the two groups of the
    match alone, so the text before the first SELECT is not in it: a query
    with a prefix that has no SELECT gives what the query without the
    prefix gives. *)
Theorem add_top_1_drops_prefix pre query :
  first_select pre = None →
  is_Some (split_ci "SELECT" query) →
  add_top_1 (pre +:+ query) = add_top_1 query.
Proof.
  intros Hpre Hq. rewrite !add_top_1_parse.
  rewrite first_select_prefix, first_select_here by done.
  by destruct Hq as [[a s1] ->].
Qed.

(** * Properties of [SqlWrapper] *)

Section SqlWrapperProperties.
Import SqlWrapper.
Context `{Runtime}.

Implicit Types (st : state) (host : Host) (query : PyVal) (q : string)
  (params : list PyVal).

Local Ltac unfold_W :=
  unfold mbind, W_bind, wbind, mret, W_ret, wret, wraise, emit, lift.

Lemma unpack_unpacked {A} (func : PyVal → list PyVal → A) query params :
  unpack_tuple_argument func query params = func query (unpacked params).
Proof. by destruct params as [|[] []]. Qed.

Lemma unpacked_valid params :
  any_invalid_parameters params = false → unpacked params = params.
Proof. by destruct params as [|[] []]. Qed.

Lemma valid_input_str query params :
  valid_input query params = true →
  ∃ q, query = VStr q ∧ q ≠ "" ∧ any_invalid_parameters params = false.
Proof.
  unfold valid_input. intros [[Ht Hs]%andb_prop Hp%negb_true_iff]%andb_prop.
  destruct query; try done. eexists. split_and!; [done| |done].
  intros ->. done.
Qed.

Lemma is_valid_true query params st :
  valid_input query params = true →
  is_valid query params st = (Returns true, st).
Proof.
  unfold valid_input. intros [[Ht Hs]%andb_prop Hp%negb_true_iff]%andb_prop.
  unfold SqlWrapper.is_valid. by rewrite Ht, Hs, Hp.
Qed.

Lemma is_valid_false query params st :
  valid_input query params = false →
  ∃ message,
    is_valid query params st
    = (Returns false,
       MkState (first_cache st) (list_cache st)
               (events st ++ [Log_Error message])).
Proof.
  unfold valid_input, SqlWrapper.is_valid. intros Hv.
  destruct (negb (truth query) || negb (isinstance_str query)) eqn:Hq.
  - eexists. unfold_W. done.
  - apply orb_false_elim in Hq as [Ht%negb_false_iff Hs%negb_false_iff].
    rewrite Ht, Hs in Hv. cbn in Hv. apply negb_false_iff in Hv.
    rewrite Hv. eexists. unfold_W. done.
Qed.

Lemma params_dict_valid params : ∀ d,
  existsb (λ param, negb (isinstance_ISqlParameter param)) params = false →
  ∃ d', params_dict params d = inr d'.
Proof.
  induction params as [|p params IH]; intros d Hp; [by eexists|].
  cbn in Hp. apply orb_false_elim in Hp as [Hp1 Hp2].
  destruct p; try done. cbn. by apply IH.
Qed.

Lemma serialize_valid params :
  any_invalid_parameters params = false → ∃ s, serialize params = inr s.
Proof.
  intros Hp. destruct params as [|p params]; [by eexists|].
  unfold SqlWrapper.serialize.
  destruct (params_dict_valid (p :: params) [] Hp) as [d ->]. by eexists.
Qed.

Lemma get_cache_key_valid q params :
  any_invalid_parameters params = false →
  ∃ s, serialize params = inr s ∧ get_cache_key q params = inr (q, s).
Proof.
  intros Hp. destruct (serialize_valid params Hp) as [s Hs]. exists s.
  unfold SqlWrapper.get_cache_key. by rewrite Hs.
Qed.

Lemma trace_result_spec host result q message params st :
  any_invalid_parameters params = false →
  trace_result host result q message params st
  = (Returns tt,
     MkState (first_cache st) (list_cache st)
             (events st ++ traced host result q message params)).
Proof.
  intros Hp. destruct (serialize_valid params Hp) as [s Hs].
  unfold SqlWrapper.trace_result, SqlWrapper.traced. rewrite Hs.
  destruct (Trace_IsOn host); cbn.
  - unfold_W. done.
  - unfold_W. rewrite app_nil_r. by destruct st.
Qed.

(** [get_list] on valid input, by what the cache does. *)
Lemma get_list_body_valid host q params st key :
  valid_input (VStr q) params = true →
  get_cache_key q params = inr key →
  get_list_body host (VStr q) params st
  = match __getitem__ (UtcNow host) key (list_cache st) with
    | (Return result, c) =>
        (Returns result,
         MkState (first_cache st) c
           (events st ++ traced host result q TRACE_CACHE_USAGE_MESSAGE params))
    | (Raise e, c) =>
        if is_KeyError e then
          let result := VList (GetList host q params) in
          match __setitem__ (UtcNow_stored host) key result c with
          | (Return _, c') =>
              (Returns result,
               MkState (first_cache st) c'
                 (events st ++ [SqlHelper_GetList q params]
                    ++ traced host result q "" params))
          | (Raise e', c') =>
              (Raises (CacheError e'),
               MkState (first_cache st) c'
                 (events st ++ [SqlHelper_GetList q params]))
          | (OutOfFuel, c') =>
              (NoFuel,
               MkState (first_cache st) c'
                 (events st ++ [SqlHelper_GetList q params]))
          end
        else (Raises (CacheError e), MkState (first_cache st) c (events st))
    | (OutOfFuel, c) => (NoFuel, MkState (first_cache st) c (events st))
    end.
Proof.
  intros Hv Hkey.
  destruct (valid_input_str _ _ Hv) as (q' & [= <-] & Hq & Hp).
  unfold SqlWrapper.get_list_body.
  unfold mbind at 1, W_bind at 1, wbind at 1. rewrite is_valid_true by done.
  cbn [negb]. unfold mbind at 1, W_bind at 1, wbind at 1.
  rewrite Hkey. cbn [lift]. unfold wret at 1.
  unfold mbind at 1, W_bind at 1, wbind at 1.
  unfold try_except, on_list_cache.
  unfold mbind at 1, W_bind at 1, wbind at 1.
  destruct (__getitem__ (UtcNow host) key (list_cache st)) as [[v|e|] c];
    cbn [lift_outcome].
  - unfold mret at 1, W_ret at 1, wret at 1.
    unfold mbind at 1, W_bind at 1, wbind at 1. cbn [fst snd].
    rewrite trace_result_spec by done. unfold_W. done.
  - destruct (is_KeyError e); [|done].
    unfold mbind at 1, W_bind at 1, wbind at 1. unfold emit at 1.
    cbn [first_cache list_cache events].
    unfold mbind at 1, W_bind at 1, wbind at 1. cbn [first_cache list_cache events].
    destruct (__setitem__ _ _ _ c) as [[[]|e'|] c']; cbn [lift_outcome]; try done.
    unfold mret at 1, W_ret at 1, wret at 1.
    unfold mbind at 1, W_bind at 1, wbind at 1. cbn [fst snd].
    rewrite trace_result_spec by done. unfold_W. cbn.
    by rewrite <-(assoc_L (++)).
  - done.
Qed.


(** [get_first] on valid input, by what the cache does. *)
Lemma get_first_body_valid host q params st key :
  valid_input (VStr q) params = true →
  get_cache_key (add_top_1 q) params = inr key →
  get_first_body host (VStr q) params st
  = match __getitem__ (UtcNow host) key (first_cache st) with
    | (Return result, c) =>
        (Returns result,
         MkState c (list_cache st)
           (events st ++ traced host result (add_top_1 q)
                           TRACE_CACHE_USAGE_MESSAGE params))
    | (Raise e, c) =>
        if is_KeyError e then
          let result := GetFirst host (add_top_1 q) params in
          match __setitem__ (UtcNow_stored host) key result c with
          | (Return _, c') =>
              (Returns result,
               MkState c' (list_cache st)
                 (events st ++ [SqlHelper_GetFirst (add_top_1 q) params]
                    ++ traced host result (add_top_1 q) "" params))
          | (Raise e', c') =>
              (Raises (CacheError e'),
               MkState c' (list_cache st)
                 (events st ++ [SqlHelper_GetFirst (add_top_1 q) params]))
          | (OutOfFuel, c') =>
              (NoFuel,
               MkState c' (list_cache st)
                 (events st ++ [SqlHelper_GetFirst (add_top_1 q) params]))
          end
        else (Raises (CacheError e), MkState c (list_cache st) (events st))
    | (OutOfFuel, c) => (NoFuel, MkState c (list_cache st) (events st))
    end.
Proof.
  intros Hv Hkey.
  destruct (valid_input_str _ _ Hv) as (q' & [= <-] & Hq & Hp).
  unfold SqlWrapper.get_first_body.
  unfold mbind at 1, W_bind at 1, wbind at 1. rewrite is_valid_true by done.
  cbn [negb]. unfold mbind at 1, W_bind at 1, wbind at 1.
  rewrite Hkey. cbn [lift]. unfold wret at 1.
  unfold mbind at 1, W_bind at 1, wbind at 1.
  unfold try_except, on_first_cache.
  unfold mbind at 1, W_bind at 1, wbind at 1.
  destruct (__getitem__ (UtcNow host) key (first_cache st)) as [[v|e|] c];
    cbn [lift_outcome].
  - unfold mret at 1, W_ret at 1, wret at 1.
    unfold mbind at 1, W_bind at 1, wbind at 1. cbn [fst snd].
    rewrite trace_result_spec by done. unfold_W. done.
  - destruct (is_KeyError e); [|done].
    unfold mbind at 1, W_bind at 1, wbind at 1. unfold emit at 1.
    cbn [first_cache list_cache events].
    unfold mbind at 1, W_bind at 1, wbind at 1. cbn [first_cache list_cache events].
    destruct (__setitem__ _ _ _ c) as [[[]|e'|] c']; cbn [lift_outcome]; try done.
    unfold mret at 1, W_ret at 1, wret at 1.
    unfold mbind at 1, W_bind at 1, wbind at 1. cbn [fst snd].
    rewrite trace_result_spec by done. unfold_W. cbn.
    by rewrite <-(assoc_L (++)).
  - done.
Qed.

Lemma getitem_hit `{Countable K} {V} now (key : K) (value : V) t (self : Self K V) :
  _cache self !! key = Some (Item value (Some t)) →
  now - t ≤ __time_to_live self →
  __getitem__ now key self = (Return value, self).
Proof.
  intros Hit Hle. rewrite getitem_spec, Hit. cbn [item_date item_value has_expired].
  rewrite bool_decide_eq_false_2; [done | lia].
Qed.

Lemma getitem_miss `{Countable K} {V} now (key : K) (self : Self K V) :
  (∀ it, _cache self !! key = Some it →
         has_expired now (item_date it) self = true) →
  __getitem__ now key self = (Raise (KeyError key), self).
Proof.
  intros Hmiss. rewrite getitem_spec.
  destruct (_cache self !! key) as [it|]; [|done]. by rewrite (Hmiss it).
Qed.

(** X13 ([SqlWrapper.is_valid], the four lookups, [unpack_tuple_argument]).
    On a query that is not a non-empty [str], or with a parameter that is
    not an [ISqlParameter] (the parameters as the decorator unpacks them),
    none of the four lookups reaches the database or a cache: each logs one
    error and returns; [get_list] and [get_list_direct] return the empty
    list, [get_first] and [get_first_direct] return [None]. *)
Theorem invalid_input_is_rejected host query params st :
  valid_input query (unpacked params) = false →
  ∃ message,
    let st' := MkState (first_cache st) (list_cache st)
                       (events st ++ [Log_Error message]) in
    get_list host query params st = (Returns (VList []), st') ∧
    get_first host query params st = (Returns VNone, st') ∧
    get_list_direct host query params st = (Returns (VList []), st') ∧
    get_first_direct host query params st = (Returns VNone, st').
Proof.
  intros Hv. destruct (is_valid_false _ _ st Hv) as [message Hmsg].
  exists message. cbn zeta.
  unfold SqlWrapper.get_list, SqlWrapper.get_first, SqlWrapper.get_list_direct,
    SqlWrapper.get_first_direct.
  rewrite !unpack_unpacked.
  unfold SqlWrapper.get_list_body, SqlWrapper.get_first_body,
    SqlWrapper.get_list_direct_body, SqlWrapper.get_first_direct_body.
  unfold mbind, W_bind, wbind. rewrite Hmsg. done.
Qed.

(** X14 ([SqlWrapper.get_list]).  On valid input whose key the list cache
    holds with an instant no older than the time to live, [get_list]
    returns the stored result; the database is not asked, neither cache
    changes, and the only event is the trace, if tracing is on, with the
    cache usage message. *)
Theorem get_list_uses_cached_result host q params st key result t :
  valid_input (VStr q) (unpacked params) = true →
  get_cache_key q (unpacked params) = inr key →
  _cache (list_cache st) !! key = Some (Item result (Some t)) →
  UtcNow host - t ≤ __time_to_live (list_cache st) →
  get_list host (VStr q) params st
  = (Returns result,
     MkState (first_cache st) (list_cache st)
       (events st ++ traced host result q TRACE_CACHE_USAGE_MESSAGE
                       (unpacked params))).
Proof.
  intros Hv Hkey Hit Hle. unfold SqlWrapper.get_list.
  rewrite unpack_unpacked, (get_list_body_valid _ _ _ _ key) by done.
  by rewrite (getitem_hit _ _ result t).
Qed.

(** X15 ([SqlWrapper.get_list]).  On valid input whose key the list cache
    cannot give (absent or expired), and with a history that agrees with
    the dict, [get_list] asks the database once, returns its answer as a
    list, stores it, and leaves the first cache alone.  A second call with
    the same input, made no later than the time to live after the result
    was stored, returns the same result without asking the database,
    whatever the database would answer then. *)
Theorem get_list_asks_once host host' q params st key :
  valid_input (VStr q) (unpacked params) = true →
  get_cache_key q (unpacked params) = inr key →
  hist_ok (list_cache st) →
  (∀ it, _cache (list_cache st) !! key = Some it →
         has_expired (UtcNow host) (item_date it) (list_cache st) = true) →
  UtcNow host' - UtcNow_stored host ≤ __time_to_live (list_cache st) →
  let result := VList (GetList host q (unpacked params)) in
  ∃ st1,
    get_list host (VStr q) params st = (Returns result, st1) ∧
    first_cache st1 = first_cache st ∧
    hist_ok (list_cache st1) ∧
    events st1
    = events st ++ [SqlHelper_GetList q (unpacked params)]
        ++ traced host result q "" (unpacked params) ∧
    get_list host' (VStr q) params st1
    = (Returns result,
       MkState (first_cache st1) (list_cache st1)
         (events st1 ++ traced host' result q TRACE_CACHE_USAGE_MESSAGE
                          (unpacked params))).
Proof.
  intros Hv Hkey Hok Hmiss Hle result. unfold SqlWrapper.get_list.
  rewrite !unpack_unpacked, (get_list_body_valid _ _ _ _ key) by done.
  rewrite getitem_miss by done. cbn [is_KeyError]. cbn zeta. fold result.
  rewrite setitem_swept by done.
  eexists. split; [done|]. cbn [first_cache list_cache events].
  split; [done|]. split.
  { destruct (setitem_hist_ok (UtcNow_stored host) key result _ Hok)
      as (c & Hc & Hokc).
    rewrite setitem_swept in Hc by done. by injection Hc as <-. }
  split; [done|].
  rewrite (get_list_body_valid _ _ _ _ key) by done.
  cbn [first_cache list_cache events].
  rewrite (getitem_hit _ _ result (UtcNow_stored host)); [done| |done].
  cbn [_cache]. apply lookup_insert_eq.
Qed.


(** X16 ([SqlWrapper.get_first]).  On valid input whose key the first cache
    cannot give (absent or expired), and with a history that agrees with
    the dict, [get_first] asks the database once, with the query that
    [add_top_1] gives, returns its answer, stores it under the key made of
    that query, and leaves the list cache alone.  A second call with the
    same input, made no later than the time to live after the result was
    stored, returns the same result without asking the database. *)
Theorem get_first_asks_once host host' q params st key :
  valid_input (VStr q) (unpacked params) = true →
  get_cache_key (add_top_1 q) (unpacked params) = inr key →
  hist_ok (first_cache st) →
  (∀ it, _cache (first_cache st) !! key = Some it →
         has_expired (UtcNow host) (item_date it) (first_cache st) = true) →
  UtcNow host' - UtcNow_stored host ≤ __time_to_live (first_cache st) →
  let result := GetFirst host (add_top_1 q) (unpacked params) in
  ∃ st1,
    get_first host (VStr q) params st = (Returns result, st1) ∧
    list_cache st1 = list_cache st ∧
    hist_ok (first_cache st1) ∧
    events st1
    = events st ++ [SqlHelper_GetFirst (add_top_1 q) (unpacked params)]
        ++ traced host result (add_top_1 q) "" (unpacked params) ∧
    get_first host' (VStr q) params st1
    = (Returns result,
       MkState (first_cache st1) (list_cache st1)
         (events st1 ++ traced host' result (add_top_1 q)
                          TRACE_CACHE_USAGE_MESSAGE (unpacked params))).
Proof.
  intros Hv Hkey Hok Hmiss Hle result. unfold SqlWrapper.get_first.
  rewrite !unpack_unpacked, (get_first_body_valid _ _ _ _ key) by done.
  rewrite getitem_miss by done. cbn [is_KeyError]. cbn zeta. fold result.
  rewrite setitem_swept by done.
  eexists. split; [done|]. cbn [first_cache list_cache events].
  split; [done|]. split.
  { destruct (setitem_hist_ok (UtcNow_stored host) key result _ Hok)
      as (c & Hc & Hokc).
    rewrite setitem_swept in Hc by done. by injection Hc as <-. }
  split; [done|].
  rewrite (get_first_body_valid _ _ _ _ key) by done.
  cbn [first_cache list_cache events].
  rewrite (getitem_hit _ _ result (UtcNow_stored host)); [done| |done].
  cbn [_cache]. apply lookup_insert_eq.
Qed.

(** X17 ([SqlWrapper.get_list_direct], [SqlWrapper.get_first_direct]).  On
    valid input the direct lookups ask the database on every call and
    return its answer ([get_first_direct] with the query that [add_top_1]
    gives); they neither read nor change a cache, whatever the caches
    hold. *)
Theorem direct_lookups_skip_caches host q params st :
  valid_input (VStr q) (unpacked params) = true →
  let rows := VList (GetList host q (unpacked params)) in
  let row := GetFirst host (add_top_1 q) (unpacked params) in
  get_list_direct host (VStr q) params st
  = (Returns rows,
     MkState (first_cache st) (list_cache st)
       (events st ++ [SqlHelper_GetList q (unpacked params)]
          ++ traced host rows q "" (unpacked params))) ∧
  get_first_direct host (VStr q) params st
  = (Returns row,
     MkState (first_cache st) (list_cache st)
       (events st ++ [SqlHelper_GetFirst (add_top_1 q) (unpacked params)]
          ++ traced host row (add_top_1 q) "" (unpacked params))).
Proof.
  intros Hv rows row.
  destruct (valid_input_str _ _ Hv) as (q' & [= <-] & Hq & Hp).
  unfold SqlWrapper.get_list_direct, SqlWrapper.get_first_direct.
  rewrite !unpack_unpacked.
  unfold SqlWrapper.get_list_direct_body, SqlWrapper.get_first_direct_body.
  split.
  - unfold mbind at 1, W_bind at 1, wbind at 1. rewrite is_valid_true by done.
    cbn [negb]. unfold mbind at 1, W_bind at 1, wbind at 1, emit at 1.
    unfold mbind at 1, W_bind at 1, wbind at 1.
    rewrite trace_result_spec by done. unfold_W. cbn.
    by rewrite <-(assoc_L (++)).
  - unfold mbind at 1, W_bind at 1, wbind at 1. rewrite is_valid_true by done.
    cbn [negb]. cbn zeta. unfold mbind at 1, W_bind at 1, wbind at 1, emit at 1.
    unfold mbind at 1, W_bind at 1, wbind at 1.
    rewrite trace_result_spec by done. unfold_W. cbn.
    by rewrite <-(assoc_L (++)).
Qed.

(** X18 ([SqlWrapper.get_list], [Cache.clear]).  After
    [SqlWrapper.list_cache.clear()], once the oldest entry of the history
    has expired, [get_list] on valid input asks the database and then
    raises [KeyError] of that entry's key out of the write to the cache
    (the [except KeyError] is around the read only): the answer is neither
    returned nor stored. *)
Theorem get_list_raises_after_clear host q params st key h e :
  valid_input (VStr q) (unpacked params) = true →
  get_cache_key q (unpacked params) = inr key →
  __history (list_cache st) = h ++ [e] →
  has_expired (UtcNow_stored host) (entry_date e) (list_cache st) = true →
  let cleared := snd (clear (list_cache st)) in
  get_list host (VStr q) params (MkState (first_cache st) cleared (events st))
  = (Raises (CacheError (KeyError (entry_key e))),
     MkState (first_cache st) cleared
       (events st ++ [SqlHelper_GetList q (unpacked params)])).
Proof.
  intros Hv Hkey Hh Hexp cleared. unfold SqlWrapper.get_list.
  rewrite unpack_unpacked, (get_list_body_valid _ _ _ _ key) by done.
  cbn [first_cache list_cache events].
  assert (cleared = MkSelf ∅ (__time_to_live (list_cache st)) (h ++ [e])) as ->.
  { unfold cleared. by rewrite clear_spec, Hh. }
  rewrite getitem_miss by (intros it; cbn; by rewrite lookup_empty).
  cbn [is_KeyError]. cbn zeta.
  rewrite setitem_unfold, remove_invalid_raise; [done| |apply lookup_empty].
  by rewrite <-Hexp.
Qed.


(** ** [get_list] against the table it stands for *)

Lemma agrees_later clock clock' cache table :
  clock ≤ clock' → agrees clock cache table → agrees clock' cache table.
Proof.
  intros Hle [Hstep Hag]. split; [by apply (in_step_later clock)|].
  intros key. specialize (Hag key).
  destruct (_cache cache !! key); [done|].
  intros result t Ht. specialize (Hag result t Ht). lia.
Qed.

Lemma agrees_loaded clock ttl : agrees clock (MkSelf ∅ ttl []) ∅.
Proof.
  split; [apply in_step_new|]. intros key. cbn. rewrite lookup_empty.
  intros result t. by rewrite lookup_empty.
Qed.

(** A key the cache cannot give is one the table does not give either. *)
Lemma agrees_miss clock now cache table key :
  agrees clock cache table → clock ≤ now →
  (∀ it, _cache cache !! key = Some it →
         has_expired now (item_date it) cache = true) →
  match table !! key with
  | Some (result, t) => bool_decide (now - t ≤ __time_to_live cache) = false
  | None => True
  end.
Proof.
  intros [Hstep Hag] Hle Hmiss. specialize (Hag key).
  destruct (table !! key) as [[result t]|] eqn:Ht; [|done].
  apply bool_decide_eq_false.
  destruct (_cache cache !! key) as [it|] eqn:Hit.
  - destruct Hag as (t' & Hd & [= _ <-]). specialize (Hmiss it eq_refl).
    rewrite Hd in Hmiss. apply has_expired_Some in Hmiss. lia.
  - specialize (Hag result t eq_refl). lia.
Qed.

Lemma agrees_setitem clock now cache table key result :
  agrees clock cache table → clock ≤ now →
  (∀ it, _cache cache !! key = Some it →
         has_expired now (item_date it) cache = true) →
  ∃ cache',
    __setitem__ now key result cache = (Return tt, cache') ∧
    __time_to_live cache' = __time_to_live cache ∧
    agrees now cache' (<[key := (result, now)]> table).
Proof.
  intros [Hstep Hag] Hle Hmiss.
  destruct (in_step_setitem clock now key result cache Hstep Hle Hmiss)
    as (cache' & Hset & Hstep' & Httl & Hlook).
  exists cache'. split_and!; [done..|]. split; [done|].
  intros k. rewrite Hlook, Httl. case_decide as Hk.
  - subst k. exists now. by rewrite lookup_insert_eq.
  - rewrite lookup_insert_ne by done. specialize (Hag k).
    destruct (_cache cache !! k) as [it|] eqn:Hit.
    + destruct Hag as (t & Hd & Ht).
      destruct (has_expired now (item_date it) cache) eqn:Hexp; [|eauto].
      intros result' t'. rewrite Ht. intros [= _ <-].
      rewrite Hd in Hexp. by apply has_expired_Some in Hexp.
    + intros result' t' Ht'. specialize (Hag result' t' Ht'). lia.
Qed.

Lemma filter_traced host result q message params :
  filter is_lookup (traced host result q message params) = [].
Proof.
  unfold SqlWrapper.traced. destruct (Trace_IsOn host); [|done].
  by destruct (SqlWrapper.serialize params).
Qed.

Lemma has_expired_later `{Countable K} {V} now now' d (self : Self K V) :
  now ≤ now' → has_expired now d self = true → has_expired now' d self = true.
Proof.
  intros Hle. destruct d as [t|]; [|done]. rewrite !has_expired_Some. lia.
Qed.

Lemma get_lists_agree calls : ∀ clock st table,
  agrees clock (list_cache st) table →
  Forall (λ c, clock ≤ UtcNow c.1.1) calls →
  clock_runs_on calls →
  Forall (λ c, valid_input (VStr c.1.2) c.2 = true) calls →
  let ideal := ideal_get_lists (__time_to_live (list_cache st)) calls table in
  ∃ st',
    get_lists calls st = (Returns (ideal.*1), st') ∧
    filter is_lookup (events st')
    = filter is_lookup (events st) ++ mjoin (ideal.*2) ∧
    first_cache st' = first_cache st.
Proof.
  induction calls as [|[[host q] params] calls IH];
    intros clock st table Hag Hclock [Hstored Hsorted] Hvalid ideal.
  { exists st. cbn. by rewrite app_nil_r. }
  apply Forall_cons in Hclock as [Hnow Hclock]. cbn [fst snd] in Hnow.
  apply Forall_cons in Hstored as [Hlater Hstored]. cbn [fst snd] in Hlater.
  apply StronglySorted_inv in Hsorted as [Hsorted Hnext]. cbn [fst snd] in Hnext.
  apply Forall_cons in Hvalid as [Hv Hvalid]. cbn [fst snd] in Hv.
  destruct (valid_input_str _ _ Hv) as (q' & [= <-] & Hq & Hp).
  destruct (get_cache_key_valid q params Hp) as (s & Hs & Hkey).
  assert (∀ st1 table1 result lookup,
    agrees (UtcNow_stored host) (list_cache st1) table1 →
    __time_to_live (list_cache st1) = __time_to_live (list_cache st) →
    first_cache st1 = first_cache st →
    filter is_lookup (events st1) = filter is_lookup (events st) ++ lookup →
    get_list host (VStr q) params st = (Returns result, st1) →
    let rest := ideal_get_lists (__time_to_live (list_cache st)) calls table1 in
    ∃ st',
      get_lists ((host, q, params) :: calls) st
      = (Returns (result :: rest.*1), st') ∧
      filter is_lookup (events st')
      = filter is_lookup (events st) ++ lookup ++ mjoin (rest.*2) ∧
      first_cache st' = first_cache st) as Hrest.
  { intros st1 table1 result lookup Hag1 Httl1 Hfc1 Hev1 Hget rest.
    destruct (IH (UtcNow_stored host) st1 table1 Hag1)
      as (st' & Hrun & Hev & Hfc); [done|done|done|].
    exists st'. cbn [SqlWrapper.get_lists].
    unfold mbind at 1, W_bind at 1, wbind at 1. rewrite Hget.
    unfold mbind at 1, W_bind at 1, wbind at 1. rewrite Hrun, Httl1.
    split_and!; [done| |congruence].
    rewrite Hev, Hev1, Httl1. by rewrite <-(assoc_L (++)). }
  unfold ideal. cbn [SqlWrapper.ideal_get_lists]. rewrite Hkey.
  assert (get_list host (VStr q) params st
          = get_list_body host (VStr q) params st) as Hbody.
  { unfold SqlWrapper.get_list. by rewrite unpack_unpacked, unpacked_valid. }
  pose proof (get_list_body_valid host q params st (q, s) Hv Hkey) as Hget.
  rewrite <-Hbody in Hget. clear Hbody.
  assert ((∀ it, _cache (list_cache st) !! (q, s) = Some it →
             has_expired (UtcNow host) (item_date it) (list_cache st) = true)
          ∨ ∃ v t, _cache (list_cache st) !! (q, s) = Some (Item v (Some t)) ∧
                   UtcNow host - t ≤ __time_to_live (list_cache st))
    as [Hmiss|(v & t & Hit & Hle)].
  { destruct (_cache (list_cache st) !! (q, s)) as [[v [t|]]|]; [| |by left].
    - destruct (has_expired (UtcNow host) (Some t) (list_cache st)) eqn:Hexp.
      + left. by intros it [= <-].
      + right. exists v, t. split; [done|].
        cbn in Hexp. apply bool_decide_eq_false in Hexp. lia.
    - left. by intros it [= <-]. }
  - (* the cache cannot give the key: the database is asked *)
    pose proof (agrees_miss _ _ _ _ (q, s) Hag Hnow Hmiss) as Hideal.
    rewrite getitem_miss in Hget by done. cbn [is_KeyError] in Hget.
    cbn zeta in Hget.
    destruct (agrees_setitem clock (UtcNow_stored host) _ table (q, s)
                (VList (GetList host q params)) Hag)
      as (cache' & Hset & Httl' & Hag'); [lia| |].
    { intros it Hit. apply (has_expired_later (UtcNow host)); [done|].
      by apply Hmiss. }
    rewrite Hset in Hget.
    eapply Hrest in Hget; [|exact Hag'|exact Httl'|done|].
    + destruct Hget as (st' & Hrun & Hev & Hfc). exists st'.
      revert Hideal.
      destruct (table !! _) as [[result t]|]; [intros ->|intros _];
        (split_and!; [exact Hrun|exact Hev|exact Hfc]).
    + cbn [events]. rewrite !filter_app, filter_traced, app_nil_r. done.
  - (* the cache gives the key *)
    pose proof Hag as [Hstep Hkv]. specialize (Hkv (q, s)).
    unfold Key in *. rewrite Hit in Hkv. destruct Hkv as (t' & [= <-] & Ht).
    cbn [item_value] in Ht.
    rewrite (getitem_hit _ _ v t) in Hget by done.
    eapply (Hrest _ table _ []) in Hget.
    + destruct Hget as (st' & Hrun & Hev & Hfc). exists st'.
      rewrite Ht. rewrite bool_decide_eq_true_2 by done.
      split_and!; [exact Hrun|exact Hev|exact Hfc].
    + cbn [list_cache]. apply (agrees_later clock); [lia|done].
    + done.
    + done.
    + cbn [events]. by rewrite filter_app, filter_traced.
Qed.

(** X19 ([SqlWrapper.get_list], [DatabaseCache]).  From the class as it is
    loaded, any run of [get_list] calls on valid input with a clock that
    never goes back returns, call by call, what a table of the last answer
    per key would return when an answer is used again for two minutes
    after it was stored, and asks the database exactly when that table
    would; the first cache is not touched. *)
Theorem get_lists_refine_the_table calls :
  clock_runs_on calls →
  Forall (λ c, valid_input (VStr c.1.2) c.2 = true) calls →
  let ideal := ideal_get_lists two_minutes calls ∅ in
  ∃ st',
    get_lists calls loaded = (Returns (ideal.*1), st') ∧
    filter is_lookup (events st') = mjoin (ideal.*2) ∧
    first_cache st' = first_cache loaded.
Proof.
  intros Hclock Hvalid ideal.
  destruct calls as [|c calls].
  { exists loaded. done. }
  apply (get_lists_agree (c :: calls) (UtcNow c.1.1) loaded ∅); try done.
  - apply agrees_loaded.
  - destruct Hclock as [Hstored Hsorted].
    apply Forall_cons in Hstored as [Hlater _].
    apply StronglySorted_inv in Hsorted as [_ Hnext].
    constructor; [done|].
    eapply Forall_impl; [exact Hnext|]. intros c'. cbn. lia.
Qed.

(** ** Parameters *)

Lemma create_parameter_valid name value :
  isinstance_ISqlParameter (create_parameter name value VNone)
  = isinstance_str name.
Proof. by destruct name. Qed.

(** X20 ([SqlWrapper.create_parameters], [SqlWrapper.create_parameter],
    [SqlWrapper.any_invalid_parameters]).  The tuple that
    [create_parameters] makes of a dict, passed as the one argument after a
    non-empty query, is valid input exactly when every key of the dict is
    a [str]: a key that is not gives [None] in the tuple, and the lookups
    reject it. *)
Theorem create_parameters_valid_input q items :
  valid_input (VStr q) (unpacked [VTuple (create_parameters (VDict items))])
  = true
  ↔ q ≠ "" ∧ Forall (λ nv, isinstance_str nv.1 = true) items.
Proof.
  unfold valid_input, unpacked. cbn [unpack_tuple_argument truth isinstance_str].
  rewrite andb_true_r, andb_true_iff, !negb_true_iff.
  assert (any_invalid_parameters (create_parameters (VDict items)) = false
          ↔ Forall (λ nv, isinstance_str nv.1 = true) items) as ->.
  { unfold any_invalid_parameters, create_parameters.
    induction items as [|[name value] items IH]; [by split|].
    rewrite fmap_cons, Forall_cons. cbn [existsb fst snd].
    rewrite create_parameter_valid, orb_false_iff, negb_false_iff.
    destruct items as [|nv items]; [|by rewrite <-IH].
    split; [intros [? _]; by split | by intros [? _]]. }
  assert (String.eqb q "" = false ↔ q ≠ "") as ->; [|done].
  by rewrite String.eqb_neq.
Qed.

Lemma params_dict_names params params' : ∀ d,
  name_value <$> params = name_value <$> params' →
  params_dict params d = params_dict params' d.
Proof.
  revert params'. induction params as [|p params IH]; intros [|p' params'] d Heq;
    try done.
  rewrite !fmap_cons in Heq. injection Heq as Hp Heq.
  destruct p, p'; try done. cbn in Hp. injection Hp as -> ->.
  cbn. by apply IH.
Qed.

(** X21 ([SqlWrapper.get_cache_key], [SqlWrapper.serialize]).  The cache key
    is made of the query and of the names and values of the parameters
    only: parameters that differ in their [DbType] alone give the same
    key. *)
Theorem cache_key_ignores_DbType q params params' :
  name_value <$> params = name_value <$> params' →
  get_cache_key q params = get_cache_key q params'.
Proof.
  intros Heq. unfold SqlWrapper.get_cache_key, SqlWrapper.serialize.
  rewrite (params_dict_names params params' []) by done.
  destruct params, params'; done.
Qed.


(** X22 ([SqlWrapper.get_data_type], [SqlWrapper.create_parameter]).  The
    derived type is one of NVARCHAR, INT, DATE, DATETIME and DECIMAL, never
    BIT: a [bool] is an [int] and gets INT.  A [DateTime] gets DATE exactly
    when its time of day is zero.  [create_parameter] with a [str] name and
    no type gives the parameter with the derived type. *)
Theorem derived_type_is_never_BIT value :
  get_data_type value
    ∈ [DbType.NVARCHAR; DbType.INT; DbType.DATE; DbType.DATETIME;
       DbType.DECIMAL] ∧
  (∀ b, get_data_type (VBool b) = DbType.INT) ∧
  (∀ ticks, get_data_type (VDateTime ticks) = DbType.DATE
            ↔ ticks `mod` 864000000000 = 0) ∧
  ∀ name, create_parameter (VStr name) value VNone
          = VParam name value (get_data_type value).
Proof.
  split_and!.
  - destruct value; cbn; try (by repeat constructor).
    case_bool_decide; by repeat constructor.
  - done.
  - intros ticks. cbn. by case_bool_decide.
  - done.
Qed.

End SqlWrapperProperties.

(** * Instances on the caches of [SqlWrapper], continued *)

Lemma writes_and_reads_never_raise_witness :
  ∃ self',
    __setitem__ (seconds 150) "q2" "rowB"
      (after_all [Call_setitem 0 "q1" "rowA"; Call_getitem (seconds 90) "q1"]
                 empty_cache)
    = (Return tt, self') ∧
    _cache self' !! "q2" = Some (Item "rowB" (Some (seconds 150))) ∧
    hist_ok self'.
Proof.
  apply (writes_and_reads_never_raise two_minutes
           [Call_setitem 0 "q1" "rowA"; Call_getitem (seconds 90) "q1"]).
  by repeat constructor.
Defined.

Lemma read_returns_last_write_witness :
  ∃ written,
    last_write "q1" [Call_setitem 0 "q1" "rowA";
                     Call_setitem (seconds 30) "q2" "rowB"]
    = Some (written, "rowA") ∧
    seconds 90 - written ≤ two_minutes.
Proof.
  apply (read_returns_last_write two_minutes
           [Call_setitem 0 "q1" "rowA"; Call_setitem (seconds 30) "q2" "rowB"]
           (seconds 90) "q1" "rowA"
           (after_all [Call_setitem 0 "q1" "rowA";
                       Call_setitem (seconds 30) "q2" "rowB"] empty_cache)).
  - by repeat constructor.
  - by vm_compute.
Defined.

Lemma size_is_history_length_witness :
  let self := after_all [Call_setitem 0 "q1" "rowA";
                         Call_setitem (seconds 30) "q2" "rowB";
                         Call_setitem (seconds 150) "q3" "rowC"] empty_cache in
  __len__ self = length (__history self) ∧
  NoDup (entry_key <$> __history self) ∧
  ∀ key, is_Some (_cache self !! key) ↔ key ∈ entry_key <$> __history self.
Proof.
  apply (size_is_history_length two_minutes
           [Call_setitem 0 "q1" "rowA"; Call_setitem (seconds 30) "q2" "rowB";
            Call_setitem (seconds 150) "q3" "rowC"]).
  by repeat constructor.
Defined.

Lemma write_leaves_no_expired_entry_witness :
  ∃ self',
    __setitem__ (seconds 150) "q2" "rowB" q1_cache = (Return tt, self') ∧
    newest_first (__history self') ∧
    Forall (λ e, date_le (entry_date e) (Some (seconds 150))) (__history self') ∧
    Forall (λ e, has_expired (seconds 150) (entry_date e) self' = false)
           (__history self').
Proof.
  apply (write_leaves_no_expired_entry (seconds 150) "q2" "rowB" q1_cache).
  - apply hist_ok_q1_cache.
  - by repeat constructor.
  - repeat constructor. by vm_compute.
  - by vm_compute.
Defined.

(** * Instances of [add_top_1] *)

Lemma add_top_1_without_select_witness :
  add_top_1 "UPDATE t SET a = 1" = "UPDATE t SET a = 1".
Proof.
  apply (add_top_1_without_select "UPDATE t SET a = 1").
  by apply first_select_None.
Defined.

Lemma add_top_1_inserts_top_witness :
  add_top_1 "select a FROM t" = "select TOP 1 a FROM t".
Proof.
  exact (add_top_1_inserts_top "select" " " "a FROM t"
           eq_refl eq_refl eq_refl eq_refl eq_refl eq_refl).
Defined.

Lemma add_top_1_after_distinct_witness :
  add_top_1 "SELECT  Distinct a FROM t" = "SELECT  Distinct TOP 1 a FROM t".
Proof.
  exact (add_top_1_after_distinct "SELECT" "  " "Distinct" " " "a FROM t"
           eq_refl eq_refl eq_refl eq_refl eq_refl eq_refl).
Defined.

Lemma add_top_1_replaces_top_witness :
  add_top_1 "SELECT TOP 10 a FROM t" = "SELECT TOP 1  a FROM t".
Proof.
  exact (add_top_1_replaces_top "SELECT" " " "TOP" " " "1" "0" " a FROM t"
           eq_refl eq_refl eq_refl eq_refl eq_refl eq_refl eq_refl).
Defined.

Lemma add_top_1_after_all_witness :
  add_top_1 "SELECT ALL a FROM t" = "SELECT ALLTOP 1  a FROM t".
Proof.
  exact (add_top_1_after_all "SELECT" " " "ALL" " a FROM t"
           eq_refl eq_refl eq_refl eq_refl).
Defined.

Lemma add_top_1_drops_prefix_witness :
  add_top_1 "WITH c AS (x) SELECT a FROM c" = add_top_1 "SELECT a FROM c".
Proof.
  apply (add_top_1_drops_prefix "WITH c AS (x) " "SELECT a FROM c").
  - reflexivity.
  - by eexists.
Defined.

(** * Instances: the class as loaded *)

Section SqlWrapperInstances.
Import SqlWrapper.

#[local] Existing Instance plain_runtime.

Lemma invalid_input_is_rejected_witness :
  ∃ message,
    let st' := MkState (first_cache loaded) (list_cache loaded)
                       (events loaded ++ [Log_Error message]) in
    get_list (host_at 0) (VStr a_query) [VInt 7] loaded
    = (Returns (VList []), st') ∧
    get_first (host_at 0) (VStr a_query) [VInt 7] loaded = (Returns VNone, st') ∧
    get_list_direct (host_at 0) (VStr a_query) [VInt 7] loaded
    = (Returns (VList []), st') ∧
    get_first_direct (host_at 0) (VStr a_query) [VInt 7] loaded
    = (Returns VNone, st').
Proof.
  apply (invalid_input_is_rejected (host_at 0) (VStr a_query) [VInt 7] loaded).
  reflexivity.
Defined.

Lemma get_list_uses_cached_result_witness :
  get_list (host_at (seconds 90)) (VStr a_query) [VTuple [a_param]] looked_up
  = (Returns (VList db_rows),
     MkState (first_cache looked_up) (list_cache looked_up)
             (events looked_up ++ [])).
Proof.
  apply (get_list_uses_cached_result (host_at (seconds 90)) a_query
           [VTuple [a_param]] looked_up (a_query, "{}") (VList db_rows) 0).
  - reflexivity.
  - reflexivity.
  - by vm_compute.
  - by vm_compute.
Defined.

Lemma get_list_asks_once_witness :
  ∃ st1,
    get_list (host_at 0) (VStr a_query) [a_param] loaded
    = (Returns (VList db_rows), st1) ∧
    first_cache st1 = first_cache loaded ∧
    hist_ok (list_cache st1) ∧
    events st1 = [SqlHelper_GetList a_query [a_param]] ∧
    get_list (host_at (seconds 90)) (VStr a_query) [a_param] st1
    = (Returns (VList db_rows),
       MkState (first_cache st1) (list_cache st1) (events st1 ++ [])).
Proof.
  apply (get_list_asks_once (host_at 0) (host_at (seconds 90)) a_query
           [a_param] loaded (a_query, "{}")).
  - reflexivity.
  - reflexivity.
  - apply hist_ok_new.
  - intros it. cbn. by rewrite lookup_empty.
  - by vm_compute.
Defined.

Lemma get_first_asks_once_witness :
  ∃ st1,
    get_first (host_at 0) (VStr a_query) [a_param] loaded
    = (Returns (VObject 1), st1) ∧
    list_cache st1 = list_cache loaded ∧
    hist_ok (first_cache st1) ∧
    events st1 = [SqlHelper_GetFirst "SELECT TOP 1 a FROM t" [a_param]] ∧
    get_first (host_at (seconds 90)) (VStr a_query) [a_param] st1
    = (Returns (VObject 1),
       MkState (first_cache st1) (list_cache st1) (events st1 ++ [])).
Proof.
  apply (get_first_asks_once (host_at 0) (host_at (seconds 90)) a_query
           [a_param] loaded ("SELECT TOP 1 a FROM t", "{}")).
  - reflexivity.
  - reflexivity.
  - apply hist_ok_new.
  - intros it. cbn. by rewrite lookup_empty.
  - by vm_compute.
Defined.

Lemma direct_lookups_skip_caches_witness :
  get_list_direct (host_at 0) (VStr a_query) [a_param] looked_up
  = (Returns (VList db_rows),
     MkState (first_cache looked_up) (list_cache looked_up)
       (events looked_up ++ [SqlHelper_GetList a_query [a_param]] ++ [])) ∧
  get_first_direct (host_at 0) (VStr a_query) [a_param] looked_up
  = (Returns (VObject 1),
     MkState (first_cache looked_up) (list_cache looked_up)
       (events looked_up
          ++ [SqlHelper_GetFirst "SELECT TOP 1 a FROM t" [a_param]] ++ [])).
Proof.
  apply (direct_lookups_skip_caches (host_at 0) a_query [a_param] looked_up).
  reflexivity.
Defined.

Lemma get_list_raises_after_clear_witness :
  let cleared := snd (clear (list_cache looked_up)) in
  get_list (host_at (seconds 150)) (VStr a_query) [a_param]
    (MkState (first_cache looked_up) cleared (events looked_up))
  = (Raises (CacheError (KeyError (a_query, "{}"))),
     MkState (first_cache looked_up) cleared
       (events looked_up ++ [SqlHelper_GetList a_query [a_param]])).
Proof.
  apply (get_list_raises_after_clear (host_at (seconds 150)) a_query [a_param]
           looked_up (a_query, "{}") [] (Entry (a_query, "{}") (Some 0))).
  - reflexivity.
  - reflexivity.
  - reflexivity.
  - by vm_compute.
Defined.

Lemma get_lists_refine_the_table_witness :
  let ideal := ideal_get_lists two_minutes three_lookups ∅ in
  ∃ st',
    get_lists three_lookups loaded = (Returns (ideal.*1), st') ∧
    filter is_lookup (events st') = mjoin (ideal.*2) ∧
    first_cache st' = first_cache loaded.
Proof.
  apply (get_lists_refine_the_table three_lookups).
  - split; repeat constructor; by vm_compute.
  - by repeat constructor.
Defined.

Lemma cache_key_ignores_DbType_witness :
  get_cache_key a_query [VParam "id" (VInt 7) DbType.INT]
  = get_cache_key a_query [VParam "id" (VInt 7) DbType.NVARCHAR].
Proof.
  apply (cache_key_ignores_DbType a_query [VParam "id" (VInt 7) DbType.INT]
           [VParam "id" (VInt 7) DbType.NVARCHAR]).
  reflexivity.
Defined.

End SqlWrapperInstances.
